(** * fitsolarflux2: piecewise Planck fit of the E490 solar spectrum

    Shallow embedding of [support/fitsolarflux2.py] and the properties of
    its array plumbing: unit conversion, merge of the smoothed and raw
    spectra, band masks, and the band loop that fills [T], [C] and [Sfit].

    Modelling choices.
    - numpy arrays of floats are [list Q]: the comparisons, selections and
      products of the script are taken in exact rational arithmetic, so
      there is no NaN and no rounding.  Equalities that depend on how
      products are associated are stated with [==] ([Qeq]).
    - the values of the unit conversion of line 10, where rounding
      matters, are also given in binary64 ([to_Jy_f64]), on the kernel's
      primitive floats.
    - boolean arrays are [list bool]; [a[mask]] and [a[mask] = v] are
      [getmask] and [setmask], with numpy's shape checks written out.
    - the names imported from mskpy and scipy ([e490], [constants.c],
      [Gaussian], [convolve], [planckfit], [Planck]) are parameters of
      the development.
    - the band loop runs in a state-and-exception monad over the script's
      global arrays; a write-only [trace] records each call of the fitter
      and each array element stored, so that "called with" and "written
      once" can be stated. *)

From Stdlib Require Import QArith Qabs Lia String PrimFloat.
From stdpp Require Import base list.

Local Open Scope Q_scope.
Set Default Proof Using "Type".

(** ** Comparisons on array elements *)

(** [x < y] on floats, as a boolean. *)
Definition Qlt_bool (x y : Q) : bool := negb (Qle_bool y x).

(** ** Exceptions and the result of a fallible expression *)

(** numpy's own exceptions, and [FitError e] for whatever the external
    fitter raises ([E] is the type of its exceptions). *)
Inductive exn (E : Type) : Type :=
| IndexError
| ValueError
| FitError (e : E).
Arguments IndexError {E}.
Arguments ValueError {E}.
Arguments FitError {E} e.

(** ** numpy array operations used by the script *)

Section Arrays.
Context {A : Type}.

(** The elements of [a] at the positions where [m] is true. *)
Fixpoint compress (m : list bool) (a : list A) : list A :=
  match m, a with
  | b :: m', x :: a' => if b then x :: compress m' a' else compress m' a'
  | _, _ => []
  end.

(** The number of true entries of a mask. *)
Fixpoint count_true (m : list bool) : nat :=
  match m with
  | [] => 0
  | b :: m' => (if b then 1 else 0) + count_true m'
  end.

(** [a] with the entries at the true positions of [m] replaced, in
    order, by the elements of [v]. *)
Fixpoint scatter (m : list bool) (v a : list A) : list A :=
  match m, a with
  | true :: m', y :: a' =>
      match v with
      | x :: v' => x :: scatter m' v' a'
      | [] => y :: a'
      end
  | false :: m', y :: a' => y :: scatter m' v a'
  | _, _ => a
  end.

(** [a[m]] for a boolean array [m]: numpy raises IndexError when the
    mask and the array differ in length. *)
Definition getmask {E} (a : list A) (m : list bool) : exn E + list A :=
  if Nat.eqb (length m) (length a) then inr (compress m a)
  else inl IndexError.

(** [a[m] = v]: IndexError on a mask of the wrong length, ValueError
    when [v] does not supply one value per selected position.  (numpy
    would broadcast a one-element [v]; the script's right-hand side
    always has one value per selected position.) *)
Definition setmask {E} (a : list A) (m : list bool) (v : list A)
  : exn E + list A :=
  if Nat.eqb (length m) (length a) then
    if Nat.eqb (length v) (count_true m) then inr (scatter m v a)
    else inl ValueError
  else inl IndexError.

(** [a[i]] and [a[i] = x] for an integer index [i >= 0]. *)
Definition getitem {E} (a : list A) (i : nat) : exn E + A :=
  match a !! i with
  | Some x => inr x
  | None => inl IndexError
  end.

Definition setitem {E} (a : list A) (i : nat) (x : A) : exn E + list A :=
  if Nat.ltb i (length a) then inr (<[i := x]> a) else inl IndexError.
End Arrays.

(** [zeros(n)]. *)
Definition zeros (n : nat) : list Q := repeat 0 n.

(** [w < x], [w >= x], [w > x], [w <= x] for an array [w] and a scalar. *)
Definition lt_scalar (w : list Q) (x : Q) : list bool :=
  map (fun wk => Qlt_bool wk x) w.
Definition ge_scalar (w : list Q) (x : Q) : list bool :=
  map (fun wk => Qle_bool x wk) w.
Definition gt_scalar (w : list Q) (x : Q) : list bool :=
  map (fun wk => Qlt_bool x wk) w.
Definition le_scalar (w : list Q) (x : Q) : list bool :=
  map (fun wk => Qle_bool wk x) w.

(** The product of two boolean arrays of one shape is their conjunction. *)
Definition mul_mask (a b : list bool) : list bool := zip_with andb a b.

(** [linspace(a, b, n)] for [n >= 2]. *)
Definition linspace (a b : Q) (n : nat) : list Q :=
  map (fun k => a + inject_Z (Z.of_nat k) * ((b - a) / inject_Z (Z.of_nat (n - 1))))
      (seq 0 n).

(** [a.sum()]. *)
Definition asum (a : list Q) : Q := fold_right Qplus 0 a.

(** [increasing_b l]: each element is below its successor. *)
Fixpoint increasing_b (l : list Q) : bool :=
  match l with
  | x :: ((y :: _) as l') => Qlt_bool x y && increasing_b l'
  | _ => true
  end.

(** ** Line 10 in binary64

    [s *= w**2 / c * 1e26] on float64 arrays, every operation rounded to
    nearest as numpy does: [w**2] is the product [w * w], the factor
    [w**2 / c * 1e26] is computed first, and [s] is multiplied by it in
    place. *)






(** ** Stand-ins for the imported functions, for concrete runs *)

(** A fitter that returns its initial guess whatever the data. *)
Definition fit_guess (wave fluxd err : list Q) (p0 : Q * Q)
  : string + Q * Q := inr p0.

(** A fitter that, like a least-squares solver with two parameters,
    raises when it is given fewer than two samples, and otherwise returns
    its initial guess. *)
Definition fit_two_or_more (wave fluxd err : list Q) (p0 : Q * Q)
  : string + Q * Q :=
  if Nat.ltb (length wave) 2 then inl "Improper input"%string else inr p0.

(** Stand-ins for [Planck], [Gaussian] and [convolve(mode='same')]. *)
Definition planck_linear (x t : Q) : Q := x * t.
Definition kernel_ones (x : list Q) (mu sigma : Q) : list Q :=
  map (fun _ => 1) x.
Definition convolve_keep (a v : list Q) : list Q := a.

(** A five-sample spectrum for [e490()]. *)
Definition demo_e490 : list Q * list Q :=
  ([0.2; 0.5; 2; 9; 20], [1; 2; 3; 4; 5]).

(** ** The script

    The names the script imports are the variables of this section. *)

Section Script.

(** Exceptions of the external fitter. *)
Variable E : Type.
(** [mskpy.calib.e490()]: the wavelength and irradiance columns. *)
Variable e490 : list Q * list Q.
(** [mskpy.constants.c]. *)
Variable c : Q.
(** [mskpy.Gaussian(x, mu, sigma)] on an array [x]. *)
Variable Gaussian : list Q -> Q -> Q -> list Q.
(** [signal.convolve(a, v, mode='same')]. *)
Variable convolve_same : list Q -> list Q -> list Q.
(** [mskpy.planckfit(wave, fluxd, err, p0)[0]]: the best-fit pair, or the
    exception the solver raises. *)
Variable planckfit : list Q -> list Q -> list Q -> Q * Q -> E + Q * Q.
(** [mskpy.Planck(wave, T)] at one wavelength; on an array it is applied
    to each element. *)
Variable Planck : Q -> Q -> Q.

(** What the write-only trace records. *)
Inductive event : Type :=
| EvFit (wave fluxd err : list Q) (p0 : Q * Q)
| EvSetT (i : nat)
| EvSetC (i : nat)
| EvSetSfit (k : nat).

(** The script's global arrays (an unbound name is the empty array), and
    the trace. [st_S] is the script's [S]. *)
Record store : Type := mkStore {
  st_w : list Q;
  st_s : list Q;
  st_kern : list Q;
  st_ss : list Q;
  st_S : list Q;
  st_C : list Q;
  st_T : list Q;
  st_Sfit : list Q;
  trace : list event
}.

Definition empty_store : store := mkStore [] [] [] [] [] [] [] [] [].

Definition set_w (v : list Q) (st : store) : store :=
  mkStore v (st_s st) (st_kern st) (st_ss st) (st_S st) (st_C st) (st_T st)
          (st_Sfit st) (trace st).
Definition set_s (v : list Q) (st : store) : store :=
  mkStore (st_w st) v (st_kern st) (st_ss st) (st_S st) (st_C st) (st_T st)
          (st_Sfit st) (trace st).
Definition set_kern (v : list Q) (st : store) : store :=
  mkStore (st_w st) (st_s st) v (st_ss st) (st_S st) (st_C st) (st_T st)
          (st_Sfit st) (trace st).
Definition set_ss (v : list Q) (st : store) : store :=
  mkStore (st_w st) (st_s st) (st_kern st) v (st_S st) (st_C st) (st_T st)
          (st_Sfit st) (trace st).
Definition set_S (v : list Q) (st : store) : store :=
  mkStore (st_w st) (st_s st) (st_kern st) (st_ss st) v (st_C st) (st_T st)
          (st_Sfit st) (trace st).
Definition set_C (v : list Q) (st : store) : store :=
  mkStore (st_w st) (st_s st) (st_kern st) (st_ss st) (st_S st) v (st_T st)
          (st_Sfit st) (trace st).
Definition set_T (v : list Q) (st : store) : store :=
  mkStore (st_w st) (st_s st) (st_kern st) (st_ss st) (st_S st) (st_C st) v
          (st_Sfit st) (trace st).
Definition set_Sfit (v : list Q) (st : store) : store :=
  mkStore (st_w st) (st_s st) (st_kern st) (st_ss st) (st_S st) (st_C st)
          (st_T st) v (trace st).
Definition log (evs : list event) (st : store) : store :=
  mkStore (st_w st) (st_s st) (st_kern st) (st_ss st) (st_S st) (st_C st)
          (st_T st) (st_Sfit st) (trace st ++ evs).

(** *** The monad of statements

    A statement maps a store to an outcome and a store: what was stored
    before an exception stays stored. *)
Definition M (A : Type) : Type := store -> (exn E + A) * store.

Definition ret {A} (a : A) : M A := fun st => (inr a, st).
Definition raise {A} (e : exn E) : M A := fun st => (inl e, st).
Definition bind {A B} (m : M A) (k : A -> M B) : M B :=
  fun st =>
    match m st with
    | (inr a, st') => k a st'
    | (inl e, st') => (inl e, st')
    end.
Definition lift {A} (r : exn E + A) : M A := fun st => (r, st).
Definition gets {A} (f : store -> A) : M A := fun st => (inr (f st), st).
Definition modify (f : store -> store) : M unit := fun st => (inr tt, f st).

#[local] Instance M_ret : MRet M := @ret.
#[local] Instance M_bind : MBind M := fun A B k m => bind m k.

(** [for i in r: body(i)]. *)
Fixpoint for_each (body : nat -> M unit) (r : list nat) : M unit :=
  match r with
  | [] => ret tt
  | i :: r' => body i;; for_each body r'
  end.

(** *** Lines 9-15: load, convert, smooth, merge *)

(** [w, s = mskpy.calib.e490()] *)
Definition load_e490 : M unit :=
  modify (fun st => set_s (snd e490) (set_w (fst e490) st)).

(** [a *= f] for arrays: [f] has the shape of [a], or one element that
    is broadcast; anything else is a ValueError. *)
Definition imul (a f : list Q) : exn E + list Q :=
  if Nat.eqb (length f) (length a) then inr (zip_with Qmult a f)
  else match f with
       | [x] => inr (map (fun y => y * x) a)
       | _ => inl ValueError
       end.

(** [s *= w**2 / mskpy.constants.c * 1e26], as a statement on the store
    (its values in binary64 are those of [to_Jy_f64]) *)
Definition to_Jy : M unit :=
  s ← gets st_s;
  w ← gets st_w;
  s' ← lift (imul s (map (fun wk => wk ^ 2 / c * 1e26) w));
  modify (set_s s').

(** [kern = mskpy.Gaussian(linspace(0, 1, 100), 0.5, 0.1)] *)
Definition make_kern : M unit :=
  modify (set_kern (Gaussian (linspace 0 1 100) 0.5 0.1)).

(** [kern /= kern.sum()] (in [Q] a division by a zero sum gives 0, where
    numpy gives inf or nan; the Gaussian kernel has a positive sum) *)
Definition normalize_kern : M unit :=
  kern ← gets st_kern;
  modify (set_kern (map (fun x => x / asum kern) kern)).

(** [ss = signal.convolve(s, kern, mode='same')] *)
Definition smooth : M unit :=
  s ← gets st_s;
  kern ← gets st_kern;
  modify (set_ss (convolve_same s kern)).

(** [S = r_[ss[w < 9], s[w >= 9]]] *)
Definition merge : M unit :=
  ss ← gets st_ss;
  w ← gets st_w;
  lo ← lift (getmask ss (lt_scalar w 9));
  s ← gets st_s;
  w' ← gets st_w;
  hi ← lift (getmask s (ge_scalar w' 9));
  modify (set_S (lo ++ hi)).

(** The merge as the specification words it: sample by sample, the
    smoothed value below 9 and the original value from 9 on. *)
Definition merge_spec (w ss s : list Q) : list Q :=
  zip_with (fun wk (p : Q * Q) => if Qlt_bool wk 9 then fst p else snd p)
           w (zip_with pair ss s).

(** *** Lines 17-24: the band fit *)

(** [wr = [0, 0.25, 0.3, 0.4, 0.6, 1.0, 3, 15, 1000]] *)
Definition wr : list Q := [0; 0.25; 0.3; 0.4; 0.6; 1.0; 3; 15; 1000].

(** [C, T = zeros((2, len(wr) - 1))] and [Sfit = zeros(len(S))]; a
    negative dimension is a ValueError. The rows [C] and [T] of the one
    array share no element. *)
Definition init_fit (edges : list Q) : M unit :=
  match edges with
  | [] => raise ValueError
  | _ :: _ =>
      modify (fun st => set_T (zeros (length edges - 1))
                          (set_C (zeros (length edges - 1)) st));;
      S ← gets st_S;
      modify (set_Sfit (zeros (length S)))
  end.

(** [x in (lo, hi]], the test behind a band's mask. *)
Definition in_band (lo hi x : Q) : bool := Qlt_bool lo x && Qle_bool x hi.

(** [j = (w > lo) * (w <= hi)] *)
Definition band_mask (lo hi : Q) (w : list Q) : list bool :=
  mul_mask (gt_scalar w lo) (le_scalar w hi).

(** The positions of the true entries of a mask, counted from [k]. *)
Fixpoint where_true (m : list bool) (k : nat) : list nat :=
  match m with
  | [] => []
  | b :: m' => (if b then [k] else []) ++ where_true m' (S k)
  end.

(** The call of the fitter, recorded in the trace before it runs. *)
Definition call_planckfit (wave fluxd err : list Q) (p0 : Q * Q) : M (Q * Q) :=
  modify (log [EvFit wave fluxd err p0]);;
  match planckfit wave fluxd err p0 with
  | inl e => raise (FitError e)
  | inr fit => ret fit
  end.

(** [T[i] = x], [C[i] = x], [Sfit[j] = v] *)
Definition store_T (i : nat) (x : Q) : M unit :=
  T ← gets st_T;
  T' ← lift (setitem T i x);
  modify (fun st => log [EvSetT i] (set_T T' st)).

Definition store_C (i : nat) (x : Q) : M unit :=
  C ← gets st_C;
  C' ← lift (setitem C i x);
  modify (fun st => log [EvSetC i] (set_C C' st)).

Definition store_Sfit (j : list bool) (v : list Q) : M unit :=
  Sfit ← gets st_Sfit;
  Sfit' ← lift (setmask Sfit j v);
  modify (fun st => log (map EvSetSfit (where_true j 0)) (set_Sfit Sfit' st)).

(** Line 21 for band [i]: [j = (w > wr[i]) * (w <= wr[i + 1])]. *)
Definition band_select (edges : list Q) (i : nat) : M (list bool) :=
  w ← gets st_w;
  lo ← lift (getitem edges i);
  hi ← lift (getitem edges (i + 1));
  ret (band_mask lo hi w).

(** Line 22:
    [T[i], C[i] = mskpy.planckfit(w[j], S[j], S[j] * 0.01, (5800.0, 1.0))[0]]. *)
Definition fit_band (i : nat) (j : list bool) : M unit :=
  w ← gets st_w;
  wj ← lift (getmask w j);
  S1 ← gets st_S;
  Sj ← lift (getmask S1 j);
  S2 ← gets st_S;
  Sj' ← lift (getmask S2 j);
  fit ← call_planckfit wj Sj (map (fun y => y * 0.01) Sj') (5800.0, 1.0);
  store_T i (fst fit);;
  store_C i (snd fit).

(** Line 24: [Sfit[j] = mskpy.Planck(w[j], T[i]) * C[i]]. *)
Definition assemble_band (i : nat) (j : list bool) : M unit :=
  w ← gets st_w;
  wj ← lift (getmask w j);
  T ← gets st_T;
  Ti ← lift (getitem T i);
  C ← gets st_C;
  Ci ← lift (getitem C i);
  store_Sfit j (map (fun p => p * Ci) (map (fun x => Planck x Ti) wj)).

(** The body of the loop, lines 21-24, for band [i]. *)
Definition band_step (edges : list Q) (i : nat) : M unit :=
  j ← band_select edges i;
  fit_band i j;;
  assemble_band i j.

(** [for i in range(len(wr) - 1): ...] *)
Definition band_loop (edges : list Q) : M unit :=
  for_each (band_step edges) (seq 0 (length edges - 1)).

(** Lines 17-24 for any list of edges. *)
Definition fit_bands (edges : list Q) : M unit :=
  init_fit edges;; band_loop edges.

(** Lines 9-15. *)
Definition prelude : M unit :=
  load_e490;; to_Jy;; make_kern;; normalize_kern;; smooth;; merge.

(** The script up to the plot: lines 29-34 draw [Sfit / S] and assign
    to none of the arrays. *)
Definition script : M unit :=
  prelude;; fit_bands wr.

(** The fitter calls of a trace, in order. *)
Definition fit_calls (tr : list event) : list event :=
  List.filter (fun ev => match ev with EvFit _ _ _ _ => true | _ => false end) tr.

(** How often the trace stores into [Sfit[k]]. *)
Definition Sfit_writes (k : nat) (tr : list event) : nat :=
  length (List.filter (fun ev => match ev with EvSetSfit k' => Nat.eqb k' k | _ => false end) tr).

(** The edges [(wr[i], wr[i + 1])] of band [i], when both exist. *)
Definition band_edges (edges : list Q) (i : nat) : option (Q * Q) :=
  match edges !! i, edges !! (i + 1)%nat with
  | Some lo, Some hi => Some (lo, hi)
  | _, _ => None
  end.

(** The mask [j] of band [i] over the wavelengths [w]. *)
Definition mask_of (edges : list Q) (i : nat) (w : list Q) : list bool :=
  match band_edges edges i with
  | Some (lo, hi) => band_mask lo hi w
  | None => []
  end.

(** Whether band [i] takes a sample of wavelength [x]. *)
Definition selects (edges : list Q) (i : nat) (x : Q) : bool :=
  match band_edges edges i with
  | Some (lo, hi) => in_band lo hi x
  | None => false
  end.

(** The fitter call the loop makes for band [i] over [w] and [S]. *)
Definition call_of (edges w Sm : list Q) (i : nat) : event :=
  let j := mask_of edges i w in
  EvFit (compress j w) (compress j Sm)
        (map (fun y => y * 0.01) (compress j Sm)) (5800.0, 1.0).

(** *** Invariants of the band loop

    [fitted edges w Sm m st]: the store after bands [0 .. m-1] over the
    wavelengths [w] and the merged flux [Sm]. *)
Definition fitted (edges w Sm : list Q) (m : nat) (st : store) : Prop :=
  st_w st = w /\ st_S st = Sm
  /\ length Sm = length w
  /\ length (st_T st) = (length edges - 1)%nat
  /\ length (st_C st) = (length edges - 1)%nat
  /\ length (st_Sfit st) = length w
  /\ fit_calls (trace st) = map (call_of edges w Sm) (seq 0 m)
  /\ forall k x, w !! k = Some x ->
       (forall i, (i < m)%nat -> selects edges i x = true ->
          Sfit_writes k (trace st) = 1%nat
          /\ exists t c, st_T st !! i = Some t /\ st_C st !! i = Some c
                         /\ st_Sfit st !! k = Some (Planck x t * c))
       /\ ((forall i, (i < m)%nat -> selects edges i x = false) ->
           Sfit_writes k (trace st) = 0%nat /\ st_Sfit st !! k = Some 0).

(** [fit_failed edges w Sm e st]: the loop stopped in the store [st] on
    the exception [e], which the fitter raised on its last call. *)
Definition fit_failed (edges w Sm : list Q) (e : exn E) (st : store) : Prop :=
  st_w st = w /\ st_S st = Sm
  /\ exists m e',
       (m < length edges - 1)%nat
       /\ e = FitError e'
       /\ fit_calls (trace st) = map (call_of edges w Sm) (seq 0 (S m))
       /\ match call_of edges w Sm m with
          | EvFit wave fluxd err p0 => planckfit wave fluxd err p0 = inl e'
          | _ => False
          end.

(** *** What one iteration may touch *)

(** The events that the iteration for band [i] with mask [j] may record. *)
Definition allowed (i : nat) (j : list bool) (ev : event) : Prop :=
  match ev with
  | EvFit _ _ _ _ => True
  | EvSetT i' => i' = i
  | EvSetC i' => i' = i
  | EvSetSfit k => j !! k = Some true
  end.

(** [touches_only i j st st']: from [st] to [st'] nothing changed but
    [T[i]], [C[i]], the entries of [Sfit] under the mask [j], and the
    trace, which grew by allowed events. *)
Definition touches_only (i : nat) (j : list bool) (st st' : store) : Prop :=
  st_w st' = st_w st /\ st_s st' = st_s st /\ st_kern st' = st_kern st
  /\ st_ss st' = st_ss st /\ st_S st' = st_S st
  /\ length (st_T st') = length (st_T st)
  /\ (forall k, k <> i -> st_T st' !! k = st_T st !! k)
  /\ length (st_C st') = length (st_C st)
  /\ (forall k, k <> i -> st_C st' !! k = st_C st !! k)
  /\ length (st_Sfit st') = length (st_Sfit st)
  /\ (forall k, j !! k <> Some true -> st_Sfit st' !! k = st_Sfit st !! k)
  /\ exists evs, trace st' = trace st ++ evs /\ Forall (allowed i j) evs.

(** [steps R m]: whatever its outcome, the statement [m] takes a store to
    one related to it by [R]. *)
Definition steps (R : store -> store -> Prop) {A} (m : M A) : Prop :=
  forall st, R st (snd (m st)).

(** *** What the loop leaves in [T] and [C]

    [stored edges w Sm m st]: over the wavelengths [w] and the merged flux
    [Sm], the entries of [T] and [C] below [m] hold what the fitter
    returned on the call of their band, and the entries from [m] on are
    still zero. *)
Definition stored (edges w Sm : list Q) (m : nat) (st : store) : Prop :=
  st_w st = w /\ st_S st = Sm
  /\ length Sm = length w
  /\ length (st_T st) = (length edges - 1)%nat
  /\ length (st_C st) = (length edges - 1)%nat
  /\ length (st_Sfit st) = length w
  /\ forall i, (i < length edges - 1)%nat ->
       ((i < m)%nat ->
        exists t sc,
          planckfit (compress (mask_of edges i w) w)
                    (compress (mask_of edges i w) Sm)
                    (map (fun y => y * 0.01) (compress (mask_of edges i w) Sm))
                    (5800.0, 1.0) = inr (t, sc)
          /\ st_T st !! i = Some t /\ st_C st !! i = Some sc)
       /\ ((m <= i)%nat -> st_T st !! i = Some 0 /\ st_C st !! i = Some 0).

(** Whether [x] lies above the first and at most at the last edge. *)
Definition in_range (edges : list Q) (x : Q) : bool :=
  match head edges, last edges with
  | Some first, Some lst => in_band first lst x
  | _, _ => false
  end.

(** What a completed iteration for band [i] records, in order: the call
    of the fitter, the stores into [T[i]] and [C[i]], and one store for
    each entry of [Sfit] under the band's mask. *)
Definition band_events (edges w Sm : list Q) (i : nat) : list event :=
  [call_of edges w Sm i; EvSetT i; EvSetC i]
  ++ map EvSetSfit (where_true (mask_of edges i w) 0).

(** [same_inputs st st']: the arrays of lines 9-15 are the same in both
    stores. *)
Definition same_inputs (st st' : store) : Prop :=
  st_w st' = st_w st /\ st_s st' = st_s st /\ st_kern st' = st_kern st
  /\ st_ss st' = st_ss st /\ st_S st' = st_S st.

(** *** Line 31: the plotted ratio [Sfit / S] *)

(** One quotient of floats: [None] stands for the inf or nan that a zero
    divisor gives. *)
Definition np_div (x y : Q) : option Q :=
  if Qeq_bool y 0 then None else Some (x / y).

(** [a / b] for arrays: one shape, or a one-element array broadcast
    against the other; anything else is a ValueError. *)
Definition np_truediv (a b : list Q) : exn E + list (option Q) :=
  if Nat.eqb (length a) (length b) then inr (zip_with np_div a b)
  else match a, b with
       | [x], _ => inr (map (np_div x) b)
       | _, [y] => inr (map (fun x => np_div x y) a)
       | _, _ => inl ValueError
       end.

(** The second argument of [plot(w, Sfit / S)]. *)
Definition plot_ratio : M (list (option Q)) :=
  Sfit ← gets st_Sfit;
  S1 ← gets st_S;
  lift (np_truediv Sfit S1).

(** ** Facts about comparisons and array operations *)

Lemma Qlt_bool_iff (x y : Q) : Qlt_bool x y = true <-> x < y.
Proof.
  unfold Qlt_bool. rewrite negb_true_iff.
  split; intros H.
  - apply Qnot_le_lt. intros Hle. apply Qle_bool_iff in Hle. congruence.
  - destruct (Qle_bool y x) eqn:Hb; [|reflexivity].
    apply Qle_bool_iff in Hb. exfalso. exact (Qlt_not_le _ _ H Hb).
Qed.

Lemma Qlt_bool_false_iff (x y : Q) : Qlt_bool x y = false <-> y <= x.
Proof.
  unfold Qlt_bool. rewrite negb_false_iff. apply Qle_bool_iff.
Qed.

Lemma Qle_bool_false_iff (x y : Q) : Qle_bool x y = false <-> y < x.
Proof.
  rewrite <- Qlt_bool_iff. unfold Qlt_bool.
  destruct (Qle_bool x y); simpl; split; congruence.
Qed.

Lemma compress_length {A} (m : list bool) (a : list A) :
  length m = length a -> length (compress m a) = count_true m.
Proof.
  revert a. induction m as [|b m IH]; intros [|x a] Hlen; simpl in *;
    try discriminate; try reflexivity.
  destruct b; simpl; rewrite IH by lia; reflexivity.
Qed.

Lemma compress_map {A B} (f : A -> B) (m : list bool) (a : list A) :
  compress m (map f a) = map f (compress m a).
Proof.
  revert a. induction m as [|b m IH]; intros [|x a]; simpl; try reflexivity.
  destruct b; simpl; rewrite IH; reflexivity.
Qed.

Lemma compress_all_false {A} (m : list bool) (a : list A) :
  count_true m = 0%nat -> compress m a = [].
Proof.
  revert a. induction m as [|b m IH]; intros [|x a] H; simpl in *;
    try reflexivity.
  destruct b; [discriminate|]. apply IH. exact H.
Qed.

Lemma scatter_length {A} (m : list bool) (v a : list A) :
  length (scatter m v a) = length a.
Proof.
  revert v a. induction m as [|b m IH]; intros v [|y a]; simpl;
    try reflexivity.
  - destruct b; reflexivity.
  - destruct b.
    + destruct v as [|x v]; simpl; [reflexivity|]. rewrite IH. reflexivity.
    + simpl. rewrite IH. reflexivity.
Qed.

Lemma scatter_nil {A} (m : list bool) (a : list A) :
  count_true m = 0%nat -> scatter m [] a = a.
Proof.
  revert a. induction m as [|b m IH]; intros [|y a] H; simpl in *;
    try reflexivity.
  - destruct b; reflexivity.
  - destruct b; [discriminate|]. rewrite IH by exact H. reflexivity.
Qed.

(** A position outside the mask keeps its value. *)
Lemma scatter_lookup_off {A} (m : list bool) (v a : list A) (k : nat) :
  m !! k <> Some true -> scatter m v a !! k = a !! k.
Proof.
  revert v a k. induction m as [|b m IH]; intros v [|y a] k Hk; simpl;
    try reflexivity.
  - destruct b; reflexivity.
  - destruct b.
    + destruct k as [|k]; [exfalso; apply Hk; reflexivity|].
      destruct v as [|x v]; [reflexivity|]. simpl. apply IH. exact Hk.
    + destruct k as [|k]; [reflexivity|]. simpl. apply IH. exact Hk.
Qed.

(** A position in the mask receives the value computed from the element
    that the same mask selected there. *)
Lemma scatter_lookup_on {A B} (f : B -> A) (m : list bool) (u : list B)
    (a : list A) (k : nat) (x : B) :
  length m = length a -> length u = length a ->
  m !! k = Some true -> u !! k = Some x ->
  scatter m (map f (compress m u)) a !! k = Some (f x).
Proof.
  revert u a k. induction m as [|b m IH]; intros [|z u] [|y a] k Hm Hu Hk Hx;
    simpl in *; try discriminate.
  destruct b.
  - simpl. destruct k as [|k]; simpl in *.
    + congruence.
    + apply IH; auto.
  - destruct k as [|k]; simpl in *; [discriminate|].
    apply IH; auto.
Qed.

Lemma filter_none {A} (f : A -> bool) (l : list A) :
  (forall y, In y l -> f y = false) -> List.filter f l = [].
Proof.
  induction l as [|y l IH]; intros H; simpl; [reflexivity|].
  rewrite (H y) by (left; reflexivity).
  apply IH. intros z Hz. apply H. right. exact Hz.
Qed.

Lemma where_true_lower (m : list bool) (b k : nat) :
  In k (where_true m b) -> (b <= k)%nat.
Proof.
  revert b. induction m as [|x m IH]; intros b; simpl; [intros []|].
  rewrite in_app_iff. intros [H|H].
  - destruct x; simpl in H; [|destruct H].
    destruct H as [<-|[]]. apply Nat.le_refl.
  - apply IH in H. lia.
Qed.

(** The store events of a mask write: position [b + k] occurs once when
    the mask is true at [k], and not at all otherwise. *)
Lemma where_true_count (m : list bool) (b k : nat) :
  length (List.filter (fun k' => Nat.eqb k' (b + k)) (where_true m b))
  = match m !! k with Some true => 1%nat | _ => 0%nat end.
Proof.
  revert b k. induction m as [|x m IH]; intros b k; simpl; [reflexivity|].
  rewrite List.filter_app, length_app.
  destruct k as [|k]; simpl.
  - replace (b + 0)%nat with b by lia.
    assert (Hrest : List.filter (fun k' => Nat.eqb k' b) (where_true m (S b)) = []).
    { apply filter_none. intros y Hy. apply where_true_lower in Hy.
      apply Nat.eqb_neq. lia. }
    rewrite Hrest. destruct x; simpl; [rewrite Nat.eqb_refl|]; reflexivity.
  - replace (b + S k)%nat with (S b + k)%nat by lia. rewrite IH.
    destruct x; simpl; [|reflexivity].
    destruct (Nat.eqb_spec b (S (b + k))); [lia|reflexivity].
Qed.

(** [linspace(0, 1, 100)] has 100 points, from 0 to 1. *)
Lemma linspace_grid :
  length (linspace 0 1 100) = 100%nat
  /\ (exists a, linspace 0 1 100 !! 0%nat = Some a /\ a == 0)
  /\ (exists b, linspace 0 1 100 !! 99%nat = Some b /\ b == 1).
Proof.
  split; [reflexivity|].
  split; eexists; (split; [reflexivity|]); reflexivity.
Qed.

(** ** Band masks *)

Lemma band_mask_map (lo hi : Q) (w : list Q) :
  band_mask lo hi w = map (in_band lo hi) w.
Proof.
  unfold band_mask, mul_mask, gt_scalar, le_scalar.
  induction w as [|x w IH]; simpl; [reflexivity|].
  rewrite IH. reflexivity.
Qed.

Lemma band_mask_length (lo hi : Q) (w : list Q) :
  length (band_mask lo hi w) = length w.
Proof. rewrite band_mask_map. apply length_map. Qed.

Lemma map_lookup_Some {A B} (f : A -> B) (l : list A) (k : nat) (y : B) :
  map f l !! k = Some y <-> exists x, l !! k = Some x /\ f x = y.
Proof.
  revert k. induction l as [|a l IH]; intros k; simpl.
  - split; [discriminate|]. intros (x & Hx & _). discriminate.
  - destruct k as [|k]; simpl.
    + split.
      * intros H. exists a. split; congruence.
      * intros (x & Hx & Hy). congruence.
    + apply IH.
Qed.

Lemma band_mask_lookup (lo hi : Q) (w : list Q) (k : nat) (b : bool) :
  band_mask lo hi w !! k = Some b
  <-> exists x, w !! k = Some x /\ in_band lo hi x = b.
Proof. rewrite band_mask_map. apply map_lookup_Some. Qed.

Lemma mask_of_lookup (edges w : list Q) (i k : nat) :
  mask_of edges i w !! k = Some true
  <-> exists x, w !! k = Some x /\ selects edges i x = true.
Proof.
  unfold mask_of, selects.
  destruct (band_edges edges i) as [[lo hi]|].
  - apply band_mask_lookup.
  - split; [discriminate|]. intros (x & _ & H). discriminate.
Qed.

Lemma in_band_iff (lo hi x : Q) : in_band lo hi x = true <-> lo < x /\ x <= hi.
Proof.
  unfold in_band. rewrite andb_true_iff, Qlt_bool_iff, Qle_bool_iff.
  reflexivity.
Qed.

Lemma band_edges_Some (edges : list Q) (i : nat) (lo hi : Q) :
  band_edges edges i = Some (lo, hi)
  <-> edges !! i = Some lo /\ edges !! (i + 1)%nat = Some hi.
Proof.
  unfold band_edges.
  destruct (edges !! i) as [a|]; destruct (edges !! (i + 1)%nat) as [b|];
    split; try discriminate; try (intros [H1 H2]; discriminate).
  - intros H. injection H as <- <-. auto.
  - intros [H1 H2]. congruence.
Qed.

Lemma band_edges_lt (edges : list Q) (i : nat) :
  (i < length edges - 1)%nat <-> is_Some (band_edges edges i).
Proof.
  unfold band_edges. split.
  - intros Hi.
    destruct (lookup_lt_is_Some_2 edges i) as [a Ha]; [lia|].
    destruct (lookup_lt_is_Some_2 edges (i + 1)) as [b Hb]; [lia|].
    rewrite Ha, Hb. eexists; reflexivity.
  - intros [p Hp].
    destruct (edges !! i) as [a|]; [|discriminate].
    destruct (edges !! (i + 1)%nat) as [b|] eqn:Hb; [|discriminate].
    apply lookup_lt_Some in Hb. lia.
Qed.

(** ** Increasing edges *)

Lemma increasing_b_tail (x : Q) (l : list Q) :
  increasing_b (x :: l) = true -> increasing_b l = true.
Proof.
  destruct l as [|y l]; simpl; [reflexivity|].
  rewrite andb_true_iff. intros [_ H]. exact H.
Qed.

Lemma increasing_b_head (x : Q) (l : list Q) (k : nat) (y : Q) :
  increasing_b (x :: l) = true -> l !! k = Some y -> x < y.
Proof.
  revert x k. induction l as [|z l IH]; intros x k Hinc Hy; [discriminate|].
  simpl in Hinc. apply andb_true_iff in Hinc as [Hxz Hl].
  apply Qlt_bool_iff in Hxz.
  destruct k as [|k]; simpl in Hy.
  - injection Hy as <-. exact Hxz.
  - apply Qlt_trans with z; [exact Hxz|]. exact (IH z k Hl Hy).
Qed.

Lemma increasing_b_lookup (l : list Q) (i j : nat) (a b : Q) :
  increasing_b l = true -> (i < j)%nat ->
  l !! i = Some a -> l !! j = Some b -> a < b.
Proof.
  revert i j. induction l as [|x l IH]; intros i j Hinc Hij Ha Hb;
    [discriminate|].
  destruct j as [|j]; [lia|]. simpl in Hb.
  destruct i as [|i]; simpl in Ha.
  - injection Ha as <-. exact (increasing_b_head _ _ _ _ Hinc Hb).
  - apply (IH i j); auto. + exact (increasing_b_tail _ _ Hinc). + lia.
Qed.

Lemma increasing_b_lookup_le (l : list Q) (i j : nat) (a b : Q) :
  increasing_b l = true -> (i <= j)%nat ->
  l !! i = Some a -> l !! j = Some b -> a <= b.
Proof.
  intros Hinc Hij Ha Hb.
  destruct (Nat.eq_dec i j) as [->|Hne].
  - assert (a = b) by congruence. subst. apply Qle_refl.
  - apply Qlt_le_weak. apply (increasing_b_lookup l i j); auto. lia.
Qed.

(** Two bands of increasing edges share no wavelength. *)
Lemma selects_disjoint (edges : list Q) (i i' : nat) (x : Q) :
  increasing_b edges = true -> i <> i' ->
  selects edges i x = true -> selects edges i' x = true -> False.
Proof.
  assert (Hlt : forall a b, increasing_b edges = true -> (a < b)%nat ->
            selects edges a x = true -> selects edges b x = true -> False).
  { intros a b Hinc Hab Ha Hb. unfold selects in *.
    destruct (band_edges edges a) as [[lo hi]|] eqn:Ea; [|discriminate].
    destruct (band_edges edges b) as [[lo' hi']|] eqn:Eb; [|discriminate].
    apply band_edges_Some in Ea as [_ Hhi]. apply band_edges_Some in Eb as [Hlo' _].
    apply in_band_iff in Ha as [_ Hx]. apply in_band_iff in Hb as [Hx' _].
    assert (Hle : hi <= lo')
      by (apply (increasing_b_lookup_le edges (a + 1) b); auto; lia).
    apply (Qlt_irrefl x).
    apply Qle_lt_trans with hi; [exact Hx|].
    apply Qle_lt_trans with lo'; assumption. }
  intros Hinc Hne Hi Hi'.
  destruct (Nat.lt_total i i') as [H|[H|H]]; [eauto| lia |eauto].
Qed.

(** Every band of increasing edges lies within the first and last edge. *)
Lemma selects_within (edges : list Q) (i : nat) (x first lst : Q) :
  increasing_b edges = true ->
  head edges = Some first -> last edges = Some lst ->
  selects edges i x = true -> first < x /\ x <= lst.
Proof.
  intros Hinc Hf Hl Hs. unfold selects in Hs.
  destruct (band_edges edges i) as [[lo hi]|] eqn:Ei; [|discriminate].
  apply band_edges_Some in Ei as [Hlo Hhi].
  apply in_band_iff in Hs as [H1 H2].
  assert (Hf' : edges !! 0%nat = Some first) by (destruct edges; exact Hf).
  assert (Hl' : edges !! (length edges - 1)%nat = Some lst)
    by (rewrite last_lookup in Hl; rewrite Nat.sub_1_r; exact Hl).
  split.
  - apply Qle_lt_trans with lo; [|exact H1].
    apply (increasing_b_lookup_le edges 0 i); auto. lia.
  - apply Qle_trans with hi; [exact H2|].
    apply (increasing_b_lookup_le edges (i + 1) (length edges - 1)); auto.
    apply lookup_lt_Some in Hhi. lia.
Qed.

(** The bands cover everything above the first edge and up to the last. *)
Lemma selects_cover (edges : list Q) (x first lst : Q) :
  head edges = Some first -> last edges = Some lst ->
  first < x -> x <= lst ->
  exists i, (i < length edges - 1)%nat /\ selects edges i x = true.
Proof.
  revert first. induction edges as [|a edges IH]; intros first Hf Hl H1 H2;
    [discriminate|].
  simpl in Hf. injection Hf as <-.
  destruct edges as [|b edges].
  - simpl in Hl. injection Hl as <-.
    exfalso. exact (Qlt_not_le _ _ H1 H2).
  - destruct (Qle_bool x b) eqn:Hxb.
    + exists 0%nat. split; [simpl; lia|].
      unfold selects, band_edges. simpl. unfold in_band.
      rewrite Hxb. apply Qlt_bool_iff in H1. rewrite H1. reflexivity.
    + apply Qle_bool_false_iff in Hxb.
      destruct (IH b) as (i & Hi & Hsel); auto.
      exists (S i). split; [simpl in *; lia|].
      unfold selects, band_edges in *. simpl in *. exact Hsel.
Qed.

(** ** The partition of the samples by the band masks *)

(** C3. For increasing edges (two or more) and any wavelengths, the masks
    of two different bands are never both true at a sample; a sample is in
    the mask of some band exactly when its wavelength is above the first
    edge and at most the last edge; a sample at the first edge is in no
    band and a sample at the last edge is in the last band.  The script's
    edges are increasing, start at 0 and end at 1000. *)
Theorem band_masks_partition (edges w : list Q) :
  increasing_b edges = true -> (2 <= length edges)%nat ->
  (forall i i' k, i <> i' ->
     ~ (mask_of edges i w !! k = Some true
        /\ mask_of edges i' w !! k = Some true))
  /\ (forall k,
        (exists i, (i < length edges - 1)%nat
                   /\ mask_of edges i w !! k = Some true)
        <-> (exists x first lst,
               w !! k = Some x /\ head edges = Some first
               /\ last edges = Some lst /\ first < x /\ x <= lst))
  /\ (forall k x first lst,
        w !! k = Some x -> head edges = Some first ->
        last edges = Some lst ->
        (x == first -> forall i, mask_of edges i w !! k <> Some true)
        /\ (x == lst ->
            mask_of edges (length edges - 2) w !! k = Some true))
  /\ (increasing_b wr = true /\ head wr = Some 0 /\ last wr = Some 1000
      /\ length wr = 9%nat).
Proof.
  intros Hinc Hlen.
  assert (Hends : exists first lst,
            head edges = Some first /\ last edges = Some lst).
  { destruct edges as [|e0 edges]; [simpl in Hlen; lia|].
    destruct (lookup_lt_is_Some_2 (e0 :: edges) (pred (length (e0 :: edges))))
      as [lst Hl]; [simpl; lia|].
    exists e0, lst. rewrite last_lookup. auto. }
  destruct Hends as (e0 & elast & Hhead & Hlast).
  split; [|split; [|split]].
  - intros i i' k Hne [Hi Hi'].
    apply mask_of_lookup in Hi as (x & Hx & Hs).
    apply mask_of_lookup in Hi' as (x' & Hx' & Hs').
    assert (x' = x) by congruence; subst x'.
    exact (selects_disjoint _ _ _ _ Hinc Hne Hs Hs').
  - intros k. split.
    + intros (i & Hi & Hm).
      apply mask_of_lookup in Hm as (x & Hx & Hs).
      exists x, e0, elast.
      destruct (selects_within _ i x e0 elast Hinc Hhead Hlast Hs).
      auto.
    + intros (x & first & lst & Hx & Hf & Hl & H1 & H2).
      destruct (selects_cover _ x first lst Hf Hl H1 H2) as (i & Hi & Hs).
      exists i. split; [exact Hi|].
      apply mask_of_lookup. eauto.
  - intros k x first lst Hx Hf Hl. split.
    + intros Heq i Hm.
      apply mask_of_lookup in Hm as (x' & Hx' & Hs).
      assert (x' = x) by congruence; subst x'.
      destruct (selects_within _ i x first lst Hinc Hf Hl Hs) as [Hlt _].
      rewrite Heq in Hlt. exact (Qlt_irrefl _ Hlt).
    + intros Heq. apply mask_of_lookup. exists x. split; [exact Hx|].
      assert (Hl' : edges !! (length edges - 1)%nat = Some lst)
        by (rewrite last_lookup in Hl; rewrite Nat.sub_1_r; exact Hl).
      destruct (lookup_lt_is_Some_2 edges (length edges - 2)) as [lo Hlo];
        [lia|].
      unfold selects, band_edges. rewrite Hlo.
      replace (length edges - 2 + 1)%nat with (length edges - 1)%nat by lia.
      rewrite Hl'. apply in_band_iff. split.
      * rewrite Heq.
        apply (increasing_b_lookup edges (length edges - 2) (length edges - 1));
          auto; lia.
      * rewrite Heq. apply Qle_refl.
  - repeat split; reflexivity.
Qed.

(** ** Unit conversion (line 10) *)



(** ** Merge of the smoothed and the raw spectrum (line 15) *)

Lemma merge_run (st : store) :
  length (st_ss st) = length (st_w st) ->
  length (st_s st) = length (st_w st) ->
  merge st
  = (inr tt,
     set_S (compress (lt_scalar (st_w st) 9) (st_ss st)
            ++ compress (ge_scalar (st_w st) 9) (st_s st)) st).
Proof.
  intros Hss Hs.
  unfold merge, mbind, M_bind, bind, gets, lift, modify, getmask. simpl.
  unfold lt_scalar, ge_scalar. rewrite !length_map, Hss, Hs, Nat.eqb_refl.
  reflexivity.
Qed.

(** From a wavelength at or above 9 on, an increasing grid selects no
    smoothed value and every raw value. *)
Lemma merge_tail (w ss s : list Q) :
  (forall k y, w !! k = Some y -> 9 <= y) ->
  length ss = length w -> length s = length w ->
  compress (lt_scalar w 9) ss = []
  /\ compress (ge_scalar w 9) s = s
  /\ merge_spec w ss s = s.
Proof.
  revert ss s. induction w as [|x w IH]; intros [|a ss] [|b s] Hge Hss Hs;
    simpl in *; try discriminate; auto.
  assert (Hx : 9 <= x) by (apply (Hge 0%nat); reflexivity).
  destruct (IH ss s) as (H1 & H2 & H3);
    [intros k y Hy; apply (Hge (S k)); exact Hy | lia | lia |].
  unfold merge_spec in *. simpl.
  assert (Hlt : Qlt_bool x 9 = false) by (apply Qlt_bool_false_iff; exact Hx).
  assert (Hle : Qle_bool 9 x = true) by (apply Qle_bool_iff; exact Hx).
  rewrite Hlt, Hle. simpl. rewrite H1, H2, H3. auto.
Qed.

Lemma merge_concat_spec (w ss s : list Q) :
  increasing_b w = true -> length ss = length w -> length s = length w ->
  compress (lt_scalar w 9) ss ++ compress (ge_scalar w 9) s
  = merge_spec w ss s.
Proof.
  revert ss s. induction w as [|x w IH]; intros [|a ss] [|b s] Hinc Hss Hs;
    simpl in *; try discriminate; [reflexivity|].
  destruct (Qlt_bool x 9) eqn:Hx.
  - assert (Hle : Qle_bool 9 x = false).
    { apply Qle_bool_false_iff. apply Qlt_bool_iff. exact Hx. }
    rewrite Hle. unfold merge_spec. simpl. rewrite Hx. simpl.
    f_equal. apply IH; [exact (increasing_b_tail _ _ Hinc) | lia | lia].
  - apply Qlt_bool_false_iff in Hx.
    assert (Hle : Qle_bool 9 x = true) by (apply Qle_bool_iff; exact Hx).
    rewrite Hle.
    destruct (merge_tail w ss s) as (H1 & H2 & H3); [|lia|lia|].
    { intros k y Hy. apply Qle_trans with x; [exact Hx|].
      apply Qlt_le_weak. exact (increasing_b_head _ _ _ _ Hinc Hy). }
    unfold merge_spec in *. simpl.
    assert (Hlt : Qlt_bool x 9 = false) by (apply Qlt_bool_false_iff; exact Hx).
    rewrite Hlt. simpl. rewrite H1, H2, H3. reflexivity.
Qed.

Lemma merge_spec_lookup (w ss s : list Q) (k : nat) (x a b : Q) :
  w !! k = Some x -> ss !! k = Some a -> s !! k = Some b ->
  merge_spec w ss s !! k = Some (if Qlt_bool x 9 then a else b).
Proof.
  intros Hw Hss Hs. unfold merge_spec.
  apply lookup_zip_with_Some. exists x, (a, b).
  split; [reflexivity|]. split; [exact Hw|].
  apply lookup_zip_with_Some. exists a, b. auto.
Qed.

(** C2. On an increasing wavelength grid, with the smoothed and the raw
    flux of the length of the grid, the concatenation built by the merge
    statement is the elementwise selection: entry [k] is the smoothed
    value when [w[k] < 9] and the raw value otherwise, so a sample at
    exactly 9 carries the raw value. *)
Theorem merge_is_selection (st : store) :
  increasing_b (st_w st) = true ->
  length (st_ss st) = length (st_w st) ->
  length (st_s st) = length (st_w st) ->
  merge st = (inr tt, set_S (merge_spec (st_w st) (st_ss st) (st_s st)) st)
  /\ forall k x a b,
       st_w st !! k = Some x -> st_ss st !! k = Some a ->
       st_s st !! k = Some b ->
       st_S (snd (merge st)) !! k = Some (if Qlt_bool x 9 then a else b)
       /\ (x == 9 -> st_S (snd (merge st)) !! k = Some b).
Proof.
  intros Hinc Hss Hs.
  assert (Hrun : merge st
            = (inr tt, set_S (merge_spec (st_w st) (st_ss st) (st_s st)) st))
    by (rewrite (merge_run st Hss Hs), (merge_concat_spec _ _ _ Hinc Hss Hs);
        reflexivity).
  split; [exact Hrun|].
  intros k x a b Hw Ha Hb. rewrite Hrun. simpl.
  rewrite (merge_spec_lookup _ _ _ _ _ _ _ Hw Ha Hb).
  split; [reflexivity|].
  intros Heq.
  assert (Hx : Qlt_bool x 9 = false)
    by (apply Qlt_bool_false_iff; rewrite Heq; apply Qle_refl).
  rewrite Hx. reflexivity.
Qed.

(** ** One iteration of the band loop *)

Lemma band_step_run (edges : list Q) (i : nat) (lo hi : Q) (st : store) :
  band_edges edges i = Some (lo, hi) ->
  length (st_S st) = length (st_w st) ->
  (i < length (st_T st))%nat -> (i < length (st_C st))%nat ->
  length (st_Sfit st) = length (st_w st) ->
  let j := mask_of edges i (st_w st) in
  let wj := compress j (st_w st) in
  let Sj := compress j (st_S st) in
  let call := EvFit wj Sj (map (fun y => y * 0.01) Sj) (5800.0, 1.0) in
  band_step edges i st
  = match planckfit wj Sj (map (fun y => y * 0.01) Sj) (5800.0, 1.0) with
    | inl e => (inl (FitError e), log [call] st)
    | inr fit =>
        (inr tt,
         log (map EvSetSfit (where_true j 0))
           (set_Sfit
              (scatter j (map (fun p => p * snd fit)
                            (map (fun x => Planck x (fst fit)) wj))
                       (st_Sfit st))
              (log [EvSetC i]
                 (set_C (<[i := snd fit]> (st_C st))
                    (log [EvSetT i]
                       (set_T (<[i := fst fit]> (st_T st))
                          (log [call] st)))))))
    end.
Proof.
  intros Hedges HS HT HC HSfit j wj Sj call.
  assert (Hj : j = band_mask lo hi (st_w st))
    by (unfold j, mask_of; rewrite Hedges; reflexivity).
  apply band_edges_Some in Hedges as [Hlo Hhi].
  unfold band_step, band_select, fit_band, assemble_band,
    mbind, M_bind, bind, gets, lift, getitem, ret. simpl.
  rewrite Hlo, Hhi. rewrite <- Hj.
  assert (Hjw : length j = length (st_w st))
    by (rewrite Hj; apply band_mask_length).
  unfold getmask. rewrite Hjw, HS, !Nat.eqb_refl.
  fold wj Sj.
  unfold call_planckfit, mbind, M_bind, bind, modify, ret, raise.
  destruct (planckfit wj Sj (map (fun y => y * 0.01) Sj) (5800.0, 1.0))
    as [e|fit] eqn:Hfit; fold call; [reflexivity|].
  unfold store_T, store_C, store_Sfit, mbind, M_bind, bind, gets, lift,
    modify, setitem. simpl.
  apply Nat.ltb_lt in HT, HC. rewrite HT. simpl. rewrite HC. simpl.
  rewrite Nat.eqb_refl.
  apply Nat.ltb_lt in HT, HC.
  rewrite !list_lookup_insert_eq by assumption.
  unfold setmask. rewrite Hjw, HSfit, Nat.eqb_refl.
  rewrite !length_map. fold wj.
  unfold wj. rewrite (compress_length j (st_w st) Hjw), Nat.eqb_refl.
  reflexivity.
Qed.

(** ** The loop *)

Lemma for_each_seq_inv (Inv : nat -> store -> Prop)
    (Fail : exn E -> store -> Prop) (body : nat -> M unit) (n a : nat)
    (st : store) :
  Inv a st ->
  (forall i st0, (a <= i < a + n)%nat -> Inv i st0 ->
     match body i st0 with
     | (inr _, st1) => Inv (S i) st1
     | (inl e, st1) => Fail e st1
     end) ->
  match for_each body (seq a n) st with
  | (inr _, st') => Inv (a + n)%nat st'
  | (inl e, st') => Fail e st'
  end.
Proof.
  revert a st. induction n as [|n IH]; intros a st Hinv Hbody; simpl.
  - unfold ret. replace (a + 0)%nat with a by lia. exact Hinv.
  - unfold mbind, M_bind, bind.
    specialize (Hbody a st (ltac:(lia)) Hinv) as Hstep.
    destruct (body a st) as [[e|[]] st1]; [exact Hstep|].
    replace (a + S n)%nat with (S a + n)%nat by lia.
    apply IH; [exact Hstep|].
    intros i st0 Hi. apply Hbody. lia.
Qed.

Lemma repeat_lookup {A} (x : A) (n k : nat) :
  (k < n)%nat -> repeat x n !! k = Some x.
Proof.
  revert k. induction n as [|n IH]; intros k Hk; [lia|].
  destruct k as [|k]; simpl; [reflexivity|]. apply IH. lia.
Qed.

Lemma fit_calls_app (tr tr' : list event) :
  fit_calls (tr ++ tr') = fit_calls tr ++ fit_calls tr'.
Proof. unfold fit_calls. apply List.filter_app. Qed.

Lemma fit_calls_stores (l : list nat) : fit_calls (map EvSetSfit l) = [].
Proof. induction l as [|k l IH]; simpl; auto. Qed.

Lemma Sfit_writes_app (k : nat) (tr tr' : list event) :
  Sfit_writes k (tr ++ tr') = (Sfit_writes k tr + Sfit_writes k tr')%nat.
Proof. unfold Sfit_writes. rewrite List.filter_app. apply length_app. Qed.

Lemma Sfit_writes_mask (k : nat) (j : list bool) :
  Sfit_writes k (map EvSetSfit (where_true j 0))
  = match j !! k with Some true => 1%nat | _ => 0%nat end.
Proof.
  rewrite <- (where_true_count j 0 k). unfold Sfit_writes. simpl.
  induction (where_true j 0) as [|k' l IH]; simpl; [reflexivity|].
  destruct (Nat.eqb k' k); simpl; rewrite IH; reflexivity.
Qed.

Lemma init_fit_run (edges : list Q) (st : store) :
  edges <> [] ->
  init_fit edges st
  = (inr tt,
     set_Sfit (zeros (length (st_S st)))
       (set_T (zeros (length edges - 1))
          (set_C (zeros (length edges - 1)) st))).
Proof.
  intros Hne. destruct edges as [|e0 edges]; [congruence|]. reflexivity.
Qed.

Lemma fitted_init (edges : list Q) (st : store) :
  edges <> [] -> length (st_S st) = length (st_w st) -> trace st = [] ->
  fitted edges (st_w st) (st_S st) 0
    (set_Sfit (zeros (length (st_S st)))
       (set_T (zeros (length edges - 1))
          (set_C (zeros (length edges - 1)) st))).
Proof.
  intros Hne HS Htr. unfold fitted, zeros. simpl.
  rewrite !repeat_length, Htr.
  do 7 (split; [auto|]).
  intros k x Hx. split.
  - intros i Hi. lia.
  - intros _. split; [reflexivity|].
    apply repeat_lookup. rewrite HS. exact (lookup_lt_Some _ _ _ Hx).
Qed.

Lemma seq_snoc (m : nat) : seq 0 (S m) = seq 0 m ++ [m].
Proof. rewrite seq_S. reflexivity. Qed.

(** One iteration takes [fitted] from band [m] to band [m + 1], or stops
    on the exception of the fitter. *)
Lemma band_step_fitted (edges w Sm : list Q) (m : nat) (st : store) :
  increasing_b edges = true -> (m < length edges - 1)%nat ->
  fitted edges w Sm m st ->
  match band_step edges m st with
  | (inr _, st1) => fitted edges w Sm (S m) st1
  | (inl e, st1) => fit_failed edges w Sm e st1
  end.
Proof.
  intros Hinc Hm (Hw & HS & Hlen & HT & HC & HSfit & Hcalls & Hpos).
  destruct (proj1 (band_edges_lt edges m) Hm) as [[lo hi] Hedges].
  rewrite (band_step_run edges m lo hi st Hedges) by (subst; lia).
  rewrite Hw, HS.
  set (j := mask_of edges m w).
  assert (Hjw : length j = length w)
    by (unfold j, mask_of; rewrite Hedges; apply band_mask_length).
  destruct (planckfit _ _ _ _) as [e|[t sc]] eqn:Hfit.
  - (* the fitter raises *)
    split; [exact Hw|]. split; [exact HS|].
    exists m, e. split; [exact Hm|]. split; [reflexivity|]. split.
    + simpl trace. rewrite fit_calls_app, Hcalls, seq_snoc, map_app.
      reflexivity.
    + unfold call_of. fold j. exact Hfit.
  - (* the fitter returns (t, sc) *)
    unfold fitted.
    cbn [st_w st_S st_T st_C st_Sfit trace log set_Sfit set_C set_T fst snd].
    rewrite scatter_length, !length_insert.
    do 6 (split; [assumption|]). split.
    + rewrite !fit_calls_app, fit_calls_stores, Hcalls, seq_snoc, map_app.
      simpl. rewrite !app_nil_r. reflexivity.
    + intros k x Hx.
      rewrite !Sfit_writes_app, Sfit_writes_mask.
      change (Sfit_writes k [EvFit (compress j w) (compress j Sm)
                (map (fun y => y * 0.01) (compress j Sm)) (5800.0, 1.0)])
        with 0%nat.
      change (Sfit_writes k [EvSetT m]) with 0%nat.
      change (Sfit_writes k [EvSetC m]) with 0%nat.
      destruct (Hpos k x Hx) as [Hcov Hunc].
      rewrite map_map.
      destruct (selects edges m x) eqn:Hsel.
      * (* band m takes sample k *)
        assert (Hjk : j !! k = Some true)
          by (apply mask_of_lookup; eauto).
        rewrite Hjk.
        assert (Hbefore : forall i, (i < m)%nat -> selects edges i x = false).
        { intros i Hi. destruct (selects edges i x) eqn:Hi'; [|reflexivity].
          exfalso. apply (selects_disjoint edges i m x); auto. lia. }
        destruct (Hunc Hbefore) as [Hw0 _].
        split.
        -- intros i Hi Hseli.
           assert (i = m).
           { destruct (Nat.eq_dec i m) as [|Hne]; [assumption|].
             rewrite Hbefore in Hseli by lia. discriminate. }
           subst i. split; [lia|].
           exists t, sc.
           rewrite !list_lookup_insert_eq by lia.
           split; [reflexivity|]. split; [reflexivity|].
           apply (scatter_lookup_on (fun x0 => Planck x0 t * sc) j w);
             auto; lia.
        -- intros Hnone. rewrite (Hnone m) in Hsel by lia. discriminate.
      * (* band m leaves sample k alone *)
        assert (Hjk : j !! k <> Some true).
        { intros Hjk. apply mask_of_lookup in Hjk as (x' & Hx' & Hs').
          congruence. }
        rewrite (scatter_lookup_off j _ _ k Hjk).
        assert (Hcount : match j !! k with Some true => 1%nat | _ => 0%nat end
                         = 0%nat)
          by (destruct (j !! k) as [[]|]; congruence).
        rewrite Hcount.
        split.
        -- intros i Hi Hseli.
           assert (Hlt : (i < m)%nat).
           { destruct (Nat.eq_dec i m) as [->|Hne]; [congruence|lia]. }
           destruct (Hcov i Hlt Hseli) as (Hone & t' & c' & Ht' & Hc' & Hv).
           split; [lia|]. exists t', c'.
           rewrite !list_lookup_insert_ne by lia. auto.
        -- intros Hnone.
           destruct Hunc as [Hzero Hv]; [intros i Hi; apply Hnone; lia|].
           split; [lia|exact Hv].
Qed.

(** Lines 17-24 on a store whose [S] has the length of [w]: the loop
    runs through all bands, or stops on an exception of the fitter. *)
Lemma fit_bands_outcome (edges : list Q) (st : store) :
  increasing_b edges = true -> edges <> [] ->
  length (st_S st) = length (st_w st) -> trace st = [] ->
  match fit_bands edges st with
  | (inr _, st') => fitted edges (st_w st) (st_S st) (length edges - 1) st'
  | (inl e, st') => fit_failed edges (st_w st) (st_S st) e st'
  end.
Proof.
  intros Hinc Hne HS Htr.
  unfold fit_bands, mbind, M_bind, bind.
  rewrite (init_fit_run edges st Hne).
  unfold band_loop.
  apply (for_each_seq_inv (fitted edges (st_w st) (st_S st))
           (fit_failed edges (st_w st) (st_S st))
           (band_step edges) (length edges - 1) 0).
  - apply fitted_init; assumption.
  - intros i st0 Hi Hfitted.
    apply band_step_fitted; [exact Hinc | lia | exact Hfitted].
Qed.

(** ** A band that selects no sample *)

Lemma where_true_none (j : list bool) (b : nat) :
  count_true j = 0%nat -> where_true j b = [].
Proof.
  revert b. induction j as [|x j IH]; intros b H; simpl in *; [reflexivity|].
  destruct x; [discriminate|]. simpl. apply IH. exact H.
Qed.

(** C1, as the code has it. When the mask of band [i] selects no sample,
    the iteration calls the fitter on empty arrays with the guess
    (5800, 1) and has no check of its own: an exception of the fitter
    is passed on as it is, after the call alone was recorded; a pair
    the fitter returns is stored in [T[i]] and [C[i]], [Sfit] is left
    as it was, and the iteration completes. *)
Theorem empty_band_defers_to_fitter (edges : list Q) (i : nat) (st : store) :
  (i < length edges - 1)%nat ->
  length (st_S st) = length (st_w st) ->
  (i < length (st_T st))%nat -> (i < length (st_C st))%nat ->
  length (st_Sfit st) = length (st_w st) ->
  count_true (mask_of edges i (st_w st)) = 0%nat ->
  match planckfit [] [] [] (5800.0, 1.0) with
  | inl e =>
      band_step edges i st
      = (inl (FitError e), log [EvFit [] [] [] (5800.0, 1.0)] st)
  | inr fit =>
      exists st',
        band_step edges i st = (inr tt, st')
        /\ st_T st' = <[i := fst fit]> (st_T st)
        /\ st_C st' = <[i := snd fit]> (st_C st)
        /\ st_Sfit st' = st_Sfit st
        /\ trace st'
           = trace st ++ [EvFit [] [] [] (5800.0, 1.0); EvSetT i; EvSetC i]
  end.
Proof.
  intros Hi HS HT HC HSfit Hempty.
  destruct (proj1 (band_edges_lt edges i) Hi) as [[lo hi] Hedges].
  rewrite (band_step_run edges i lo hi st Hedges HS HT HC HSfit).
  rewrite !(compress_all_false _ _ Hempty). simpl map.
  destruct (planckfit [] [] [] (5800.0, 1.0)) as [e|fit]; [reflexivity|].
  eexists. split; [reflexivity|].
  cbn [st_T st_C st_Sfit trace log set_Sfit set_C set_T].
  rewrite (scatter_nil _ _ Hempty), (where_true_none _ _ Hempty).
  simpl. rewrite app_nil_r, <- !app_assoc. simpl. auto.
Qed.

(** ** The whole script *)

Lemma count_true_split (w : list Q) (x : Q) :
  (count_true (lt_scalar w x) + count_true (ge_scalar w x))%nat = length w.
Proof.
  induction w as [|wk w IH]; simpl; [reflexivity|].
  unfold Qlt_bool. destruct (Qle_bool x wk); simpl; lia.
Qed.

(** Lines 9-15 record nothing in the trace; when they complete, [w] is the
    loaded wavelength column and [S] has its length. *)
Lemma prelude_outcome :
  match prelude empty_store with
  | (inr _, st1) =>
      st_w st1 = fst e490 /\ length (st_S st1) = length (st_w st1)
      /\ trace st1 = []
  | (inl e, st1) => trace st1 = []
  end.
Proof.
  unfold prelude, load_e490, to_Jy, make_kern, normalize_kern, smooth, merge,
    mbind, M_bind, bind, gets, lift, modify. simpl.
  destruct (imul _ _) as [e|s']; [reflexivity|]. simpl.
  unfold getmask.
  destruct (Nat.eqb (length (lt_scalar (fst e490) 9)) _) eqn:H1;
    [|reflexivity].
  destruct (Nat.eqb (length (ge_scalar (fst e490) 9)) _) eqn:H2;
    [|reflexivity].
  simpl. split; [reflexivity|]. split; [|reflexivity].
  apply Nat.eqb_eq in H1, H2.
  rewrite length_app, !compress_length by assumption.
  apply count_true_split.
Qed.

Lemma wr_increasing : increasing_b wr = true.
Proof. reflexivity. Qed.

(** The script either stops before the band fit with an empty trace, or
    runs the band fit over the loaded wavelengths and the merged flux. *)
Lemma script_outcome :
  match script empty_store with
  | (inr _, st) => fitted wr (fst e490) (st_S st) 8 st
  | (inl e, st) =>
      trace st = [] \/ fit_failed wr (fst e490) (st_S st) e st
  end.
Proof.
  unfold script, mbind, M_bind, bind.
  pose proof prelude_outcome as Hpre.
  destruct (prelude empty_store) as [[e|[]] st1]; [left; exact Hpre|].
  destruct Hpre as (Hw & HS & Htr).
  pose proof (fit_bands_outcome wr st1 wr_increasing
                ltac:(discriminate) HS Htr) as Hfit.
  rewrite Hw in Hfit.
  destruct (fit_bands wr st1) as [[e|[]] st].
  - right. destruct Hfit as (H1 & H2 & H3).
    rewrite H2. split; [exact H1|]. split; [exact H2|]. exact H3.
  - change (length wr - 1)%nat with 8%nat in Hfit.
    destruct Hfit as (H1 & H2 & H3).
    rewrite H2. split; [exact H1|]. split; [exact H2|]. exact H3.
Qed.

(** C4. When the script completes: [Sfit] was created as zeros of the
    length of the loaded spectrum and keeps that length; a sample in the
    mask of a band [i] was stored into exactly once, and holds
    [Planck(w[k], T[i]) * C[i]] (which is [C[i] * Planck(w[k], T[i])]);
    a sample in no mask was never stored into and still holds zero. *)
Theorem assembled_fit_written_once (st : store) :
  script empty_store = (inr tt, st) ->
  (exists st1 st0,
      prelude empty_store = (inr tt, st1)
      /\ init_fit wr st1 = (inr tt, st0)
      /\ band_loop wr st0 = (inr tt, st)
      /\ st_Sfit st0 = zeros (length (fst e490)))
  /\ length (st_Sfit st) = length (fst e490)
  /\ forall k x,
       fst e490 !! k = Some x ->
       (forall i, (i < 8)%nat ->
          mask_of wr i (fst e490) !! k = Some true ->
          Sfit_writes k (trace st) = 1%nat
          /\ exists t sc v,
               st_T st !! i = Some t /\ st_C st !! i = Some sc
               /\ st_Sfit st !! k = Some v
               /\ v = Planck x t * sc /\ v == sc * Planck x t)
       /\ ((forall i, (i < 8)%nat ->
              mask_of wr i (fst e490) !! k <> Some true) ->
           Sfit_writes k (trace st) = 0%nat /\ st_Sfit st !! k = Some 0).
Proof.
  intros Hrun.
  pose proof script_outcome as Hout. rewrite Hrun in Hout.
  destruct Hout as (Hw & HS & Hlen & HT & HC & HSfit & Hcalls & Hpos).
  split; [|split; [exact HSfit|]].
  - unfold script, fit_bands, mbind, M_bind, bind in Hrun.
    pose proof prelude_outcome as Hpre.
    destruct (prelude empty_store) as [[e|[]] st1]; [discriminate|].
    destruct Hpre as (Hw1 & HS1 & _).
    rewrite (init_fit_run wr st1 ltac:(discriminate)) in Hrun.
    eexists st1, _. split; [reflexivity|].
    split; [apply init_fit_run; discriminate|].
    split; [exact Hrun|].
    simpl. rewrite HS1, Hw1. reflexivity.
  - intros k x Hx. destruct (Hpos k x Hx) as [Hcov Hunc]. split.
    + intros i Hi Hmask.
      apply mask_of_lookup in Hmask as (x' & Hx' & Hsel).
      assert (x' = x) by congruence; subst x'.
      destruct (Hcov i Hi Hsel) as (Hone & t & sc & Ht & Hc & Hv).
      split; [exact Hone|].
      exists t, sc, (Planck x t * sc).
      repeat split; auto. apply Qmult_comm.
    + intros Hnone. apply Hunc. intros i Hi.
      destruct (selects wr i x) eqn:Hsel; [|reflexivity].
      exfalso. apply (Hnone i Hi). apply mask_of_lookup. eauto.
Qed.

(** ** A sample beyond the last edge *)

(** C5, as the code has it. For increasing edges and a sample above the
    last edge, lines 17-24 check nothing about coverage: either they
    complete, with no store into that sample's [Sfit] entry, which is
    still zero, or they stop on an exception that the fitter raised on a
    call the trace records. *)
Theorem uncovered_sample_left_at_zero (edges : list Q) (st : store)
    (k : nat) (x lst : Q) :
  increasing_b edges = true -> last edges = Some lst ->
  length (st_S st) = length (st_w st) -> trace st = [] ->
  st_w st !! k = Some x -> lst < x ->
  match fit_bands edges st with
  | (inr _, st') =>
      st_Sfit st' !! k = Some 0 /\ Sfit_writes k (trace st') = 0%nat
  | (inl e, st') =>
      exists e' wave fluxd err,
        e = FitError e'
        /\ planckfit wave fluxd err (5800.0, 1.0) = inl e'
        /\ In (EvFit wave fluxd err (5800.0, 1.0)) (trace st')
  end.
Proof.
  intros Hinc Hlast HS Htr Hx Hgt.
  assert (Hne : edges <> []) by (intros ->; discriminate).
  assert (Hnone : forall i, selects edges i x = false).
  { intros i. destruct (selects edges i x) eqn:Hsel; [|reflexivity].
    exfalso.
    destruct edges as [|e0 edges']; [congruence|].
    destruct (selects_within _ i x e0 lst Hinc eq_refl Hlast Hsel) as [_ Hle].
    exact (Qlt_not_le _ _ Hgt Hle). }
  pose proof (fit_bands_outcome edges st Hinc Hne HS Htr) as Hout.
  destruct (fit_bands edges st) as [[e|[]] st'].
  - destruct Hout as (_ & _ & m & e' & Hm & He & Hcalls & Hcall).
    unfold call_of in Hcall.
    eexists e', _, _, _. split; [exact He|]. split; [exact Hcall|].
    assert (Hin : In (call_of edges (st_w st) (st_S st) m)
                     (fit_calls (trace st'))).
    { rewrite Hcalls. apply in_map. apply in_seq. lia. }
    unfold fit_calls in Hin. apply List.filter_In in Hin as [Hin _].
    exact Hin.
  - destruct Hout as (_ & _ & _ & _ & _ & _ & _ & Hpos).
    destruct (Hpos k x Hx) as [_ Hunc].
    destruct Hunc as [H0 Hv]; [intros i _; apply Hnone|]. auto.
Qed.

(** ** The smoothing kernel (lines 11-12) *)




(** ** The frame of one iteration *)

#[local] Instance touches_only_refl (i : nat) (j : list bool) :
  Reflexive (touches_only i j).
Proof.
  intros st. unfold touches_only. do 11 (split; [reflexivity|]).
  exists []. rewrite app_nil_r. split; [reflexivity|constructor].
Qed.

#[local] Instance touches_only_trans (i : nat) (j : list bool) :
  Transitive (touches_only i j).
Proof.
  intros st1 st2 st3.
  intros (Hw & Hs & Hk & Hss & HS & HT & HTi & HC & HCi & HF & HFj
          & evs & Htr & Hevs).
  intros (Hw' & Hs' & Hk' & Hss' & HS' & HT' & HTi' & HC' & HCi' & HF' & HFj'
          & evs' & Htr' & Hevs').
  unfold touches_only.
  split; [congruence|]. split; [congruence|]. split; [congruence|].
  split; [congruence|]. split; [congruence|]. split; [congruence|].
  split; [intros k Hk0; rewrite HTi', HTi by assumption; reflexivity|].
  split; [congruence|].
  split; [intros k Hk0; rewrite HCi', HCi by assumption; reflexivity|].
  split; [congruence|].
  split; [intros k Hk0; rewrite HFj', HFj by assumption; reflexivity|].
  exists (evs ++ evs'). split.
  - rewrite Htr', Htr, app_assoc. reflexivity.
  - apply Forall_app. auto.
Qed.

Section Steps.
Context (R : store -> store -> Prop).
Context {R_refl : Reflexive R} {R_trans : Transitive R}.

Lemma steps_ret {A} (a : A) : steps R (ret a).
Proof using R_refl. intros st. simpl. reflexivity. Qed.

Lemma steps_raise {A} (e : exn E) : steps R (@raise A e).
Proof using R_refl. intros st. simpl. reflexivity. Qed.

Lemma steps_lift {A} (r : exn E + A) : steps R (lift r).
Proof using R_refl. intros st. simpl. reflexivity. Qed.

Lemma steps_gets {A} (f : store -> A) : steps R (gets f).
Proof using R_refl. intros st. simpl. reflexivity. Qed.

Lemma steps_bind {A B} (m : M A) (k : A -> M B) :
  steps R m -> (forall a, steps R (k a)) -> steps R (m ≫= k).
Proof using R_trans.
  intros Hm Hk st. unfold mbind, M_bind, bind.
  specialize (Hm st).
  destruct (m st) as [[e|a] st1]; simpl in *; [exact Hm|].
  transitivity st1; [exact Hm|apply Hk].
Qed.
End Steps.

Lemma call_planckfit_touches (i : nat) (j : list bool)
    (wave fluxd err : list Q) (p0 : Q * Q) :
  steps (touches_only i j) (call_planckfit wave fluxd err p0).
Proof.
  intros st. unfold call_planckfit, mbind, M_bind, bind, modify, ret, raise.
  assert (H : touches_only i j st (log [EvFit wave fluxd err p0] st)).
  { unfold touches_only. simpl. do 11 (split; [reflexivity|]).
    eexists. split; [reflexivity|]. repeat constructor. }
  destruct (planckfit wave fluxd err p0); exact H.
Qed.

Lemma store_T_touches (i : nat) (j : list bool) (x : Q) :
  steps (touches_only i j) (store_T i x).
Proof.
  intros st. unfold store_T, mbind, M_bind, bind, gets, lift, modify, setitem.
  simpl. destruct (Nat.ltb i (length (st_T st))); simpl; [|reflexivity].
  unfold touches_only. simpl.
  do 5 (split; [reflexivity|]). split; [apply length_insert|].
  split; [intros k Hk; apply list_lookup_insert_ne; congruence|].
  do 4 (split; [reflexivity|]).
  eexists. split; [reflexivity|]. repeat constructor.
Qed.

Lemma store_C_touches (i : nat) (j : list bool) (x : Q) :
  steps (touches_only i j) (store_C i x).
Proof.
  intros st. unfold store_C, mbind, M_bind, bind, gets, lift, modify, setitem.
  simpl. destruct (Nat.ltb i (length (st_C st))); simpl; [|reflexivity].
  unfold touches_only. simpl.
  do 7 (split; [reflexivity|]). split; [apply length_insert|].
  split; [intros k Hk; apply list_lookup_insert_ne; congruence|].
  do 2 (split; [reflexivity|]).
  eexists. split; [reflexivity|]. repeat constructor.
Qed.

Lemma where_true_In (j : list bool) (b k : nat) :
  In k (where_true j b) -> j !! (k - b)%nat = Some true.
Proof.
  revert b. induction j as [|x j IH]; intros b; simpl; [intros []|].
  rewrite in_app_iff. intros [H|H].
  - destruct x; simpl in H; [|destruct H]. destruct H as [<-|[]].
    replace (b - b)%nat with 0%nat by lia. reflexivity.
  - pose proof (where_true_lower _ _ _ H) as Hle.
    apply IH in H.
    replace (k - b)%nat with (S (k - S b)) by lia. exact H.
Qed.

Lemma store_Sfit_touches (i : nat) (j : list bool) (v : list Q) :
  steps (touches_only i j) (store_Sfit j v).
Proof.
  intros st.
  unfold store_Sfit, mbind, M_bind, bind, gets, lift, modify, setmask.
  simpl. destruct (Nat.eqb (length j) (length (st_Sfit st))); simpl;
    [|reflexivity].
  destruct (Nat.eqb (length v) (count_true j)); simpl; [|reflexivity].
  unfold touches_only. simpl.
  do 9 (split; [reflexivity|]). split; [apply scatter_length|].
  split; [intros k Hk; apply scatter_lookup_off; exact Hk|].
  eexists. split; [reflexivity|].
  apply List.Forall_forall. intros ev Hev.
  apply in_map_iff in Hev as (k & <- & Hk). simpl.
  apply where_true_In in Hk. rewrite Nat.sub_0_r in Hk. exact Hk.
Qed.

Ltac step_through :=
  repeat first
    [ apply steps_gets; typeclasses eauto
    | apply steps_lift; typeclasses eauto
    | apply call_planckfit_touches
    | apply store_T_touches
    | apply store_C_touches
    | apply store_Sfit_touches
    | apply steps_bind; [typeclasses eauto | | intros ?] ].

Lemma fit_band_touches (i : nat) (j : list bool) :
  steps (touches_only i j) (fit_band i j).
Proof. unfold fit_band. step_through. Qed.

Lemma assemble_band_touches (i : nat) (j : list bool) :
  steps (touches_only i j) (assemble_band i j).
Proof. unfold assemble_band. step_through. Qed.

Lemma band_select_run (edges : list Q) (i : nat) (st : store) :
  band_select edges i st
  = (match band_edges edges i with
     | Some _ => inr (mask_of edges i (st_w st))
     | None => inl IndexError
     end, st).
Proof.
  unfold band_select, mask_of, band_edges, mbind, M_bind, bind, gets, lift,
    getitem, ret. simpl.
  destruct (edges !! i) as [lo|]; [|reflexivity].
  destruct (edges !! (i + 1)%nat) as [hi|]; reflexivity.
Qed.

Lemma band_step_touches (edges : list Q) (i : nat) (st : store) :
  touches_only i (mask_of edges i (st_w st)) st (snd (band_step edges i st)).
Proof.
  unfold band_step, mbind, M_bind, bind.
  rewrite band_select_run.
  destruct (band_edges edges i); [|reflexivity].
  set (j := mask_of edges i (st_w st)).
  pose proof (fit_band_touches i j st) as Hfit.
  destruct (fit_band i j st) as [[e|[]] st1]; simpl in *; [exact Hfit|].
  transitivity st1; [exact Hfit|]. apply assemble_band_touches.
Qed.

(** C10. Whatever its outcome, iteration [i] leaves [w], [s], [kern],
    [ss] and [S] as they were; [T] and [C] keep their length and every
    entry other than [i]; [Sfit] keeps its length and every entry outside
    the mask of band [i]; and the stores it records are into [T[i]],
    [C[i]] and entries of [Sfit] under that mask only. *)
Theorem band_step_frame (edges : list Q) (i : nat) (st : store) :
  let j := mask_of edges i (st_w st) in
  let st' := snd (band_step edges i st) in
  st_w st' = st_w st /\ st_s st' = st_s st /\ st_kern st' = st_kern st
  /\ st_ss st' = st_ss st /\ st_S st' = st_S st
  /\ length (st_T st') = length (st_T st)
  /\ (forall k, k <> i -> st_T st' !! k = st_T st !! k)
  /\ length (st_C st') = length (st_C st)
  /\ (forall k, k <> i -> st_C st' !! k = st_C st !! k)
  /\ length (st_Sfit st') = length (st_Sfit st)
  /\ (forall k, j !! k <> Some true -> st_Sfit st' !! k = st_Sfit st !! k)
  /\ exists evs,
       trace st' = trace st ++ evs
       /\ forall ev, In ev evs ->
            match ev with
            | EvFit _ _ _ _ => True
            | EvSetT i' => i' = i
            | EvSetC i' => i' = i
            | EvSetSfit k => j !! k = Some true
            end.
Proof.
  intros j st'.
  destruct (band_step_touches edges i st)
    as (Hw & Hs & Hk & Hss & HS & HT & HTi & HC & HCi & HF & HFj
        & evs & Htr & Hevs).
  do 11 (split; [assumption|]).
  exists evs. split; [exact Htr|].
  intros ev Hev. exact (proj1 (List.Forall_forall _ _) Hevs ev Hev).
Qed.

(** ** More on the merge (line 15) *)

Lemma merge_concat_splice (w ss s : list Q) :
  increasing_b w = true -> length ss = length w -> length s = length w ->
  compress (lt_scalar w 9) ss ++ compress (ge_scalar w 9) s
  = take (count_true (lt_scalar w 9)) ss
    ++ drop (count_true (lt_scalar w 9)) s.
Proof.
  revert ss s. induction w as [|x w IH]; intros [|a ss] [|b s] Hinc Hss Hs;
    simpl in *; try discriminate; [reflexivity|].
  destruct (Qlt_bool x 9) eqn:Hx.
  - assert (Hle : Qle_bool 9 x = false).
    { apply Qle_bool_false_iff. apply Qlt_bool_iff. exact Hx. }
    rewrite Hle. simpl. f_equal.
    apply IH; [exact (increasing_b_tail _ _ Hinc) | lia | lia].
  - apply Qlt_bool_false_iff in Hx.
    assert (Hle : Qle_bool 9 x = true) by (apply Qle_bool_iff; exact Hx).
    rewrite Hle.
    destruct (merge_tail w ss s) as (H1 & H2 & _); [|lia|lia|].
    { intros k y Hy. apply Qle_trans with x; [exact Hx|].
      apply Qlt_le_weak. exact (increasing_b_head _ _ _ _ Hinc Hy). }
    rewrite H1, H2. simpl.
    assert (H0 : count_true (lt_scalar w 9) = 0%nat).
    { rewrite <- (compress_length (lt_scalar w 9) ss), H1; [reflexivity|].
      unfold lt_scalar. rewrite length_map. lia. }
    rewrite H0. reflexivity.
Qed.

Lemma increasing_below_prefix (w : list Q) (x9 : Q) (k : nat) (x : Q) :
  increasing_b w = true -> w !! k = Some x ->
  ((k < count_true (lt_scalar w x9))%nat <-> x < x9).
Proof.
  revert k. induction w as [|y w IH]; intros k Hinc Hk; [discriminate|].
  simpl. destruct (Qlt_bool y x9) eqn:Hy.
  - destruct k as [|k]; simpl in Hk.
    + injection Hk as <-. apply Qlt_bool_iff in Hy. split; [auto|lia].
    + rewrite <- (IH k (increasing_b_tail _ _ Hinc) Hk). lia.
  - apply Qlt_bool_false_iff in Hy.
    assert (H0 : count_true (lt_scalar w x9) = 0%nat).
    { clear IH Hk. induction w as [|z w IHw]; [reflexivity|].
      simpl.
      assert (Hz : Qlt_bool z x9 = false).
      { apply Qlt_bool_false_iff. apply Qle_trans with y; [exact Hy|].
        apply Qlt_le_weak.
        exact (increasing_b_head y (z :: w) 0 z Hinc eq_refl). }
      rewrite Hz. simpl. apply IHw.
      simpl in Hinc. apply andb_true_iff in Hinc as [Hyz Hzw].
      destruct w as [|z' w]; [reflexivity|].
      simpl in *. apply andb_true_iff in Hzw as [Hzz' Hw].
      apply andb_true_iff. split; [|exact Hw].
      apply Qlt_bool_iff. apply Qlt_bool_iff in Hyz, Hzz'.
      exact (Qlt_trans _ _ _ Hyz Hzz'). }
    rewrite H0. simpl. split; [lia|].
    intros Hlt. exfalso.
    assert (Hyx : y <= x).
    { apply (increasing_b_lookup_le (y :: w) 0 k); auto. lia. }
    apply (Qlt_irrefl x9).
    apply Qle_lt_trans with x; [|exact Hlt].
    apply Qle_trans with y; assumption.
Qed.

(** On an increasing grid the merge is a splice at one index [n], the
    number of wavelengths below 9: [S] is the first [n] smoothed values
    followed by the raw values from [n] on, and the samples before [n]
    are exactly those below 9. *)
Theorem merge_is_splice (st : store) :
  increasing_b (st_w st) = true ->
  length (st_ss st) = length (st_w st) ->
  length (st_s st) = length (st_w st) ->
  let n := count_true (lt_scalar (st_w st) 9) in
  st_S (snd (merge st)) = take n (st_ss st) ++ drop n (st_s st)
  /\ forall k x, st_w st !! k = Some x -> ((k < n)%nat <-> x < 9).
Proof.
  intros Hinc Hss Hs n. split.
  - rewrite (merge_run st Hss Hs). simpl.
    apply merge_concat_splice; assumption.
  - intros k x Hx. apply increasing_below_prefix; assumption.
Qed.

(** ** The shape of the bands on a grid *)

(** On an increasing grid each band takes a block of neighbouring
    samples, and for increasing edges the blocks lie in the order of the
    bands: a sample of an earlier band comes before every sample of a
    later one. *)
Theorem bands_are_ordered_blocks (edges w : list Q) :
  increasing_b w = true ->
  (forall i k1 k2 k3,
     (k1 <= k2 <= k3)%nat ->
     mask_of edges i w !! k1 = Some true ->
     mask_of edges i w !! k3 = Some true ->
     mask_of edges i w !! k2 = Some true)
  /\ (increasing_b edges = true ->
      forall i i' k k',
        (i < i')%nat ->
        mask_of edges i w !! k = Some true ->
        mask_of edges i' w !! k' = Some true ->
        (k < k')%nat).
Proof.
  intros Hw. split.
  - intros i k1 k2 k3 [H12 H23] H1 H3.
    apply mask_of_lookup in H1 as (x1 & Hx1 & Hs1).
    apply mask_of_lookup in H3 as (x3 & Hx3 & Hs3).
    destruct (lookup_lt_is_Some_2 w k2) as [x2 Hx2];
      [apply lookup_lt_Some in Hx3; lia|].
    apply mask_of_lookup. exists x2. split; [exact Hx2|].
    unfold selects in *.
    destruct (band_edges edges i) as [[lo hi]|]; [|discriminate].
    apply in_band_iff in Hs1 as [Hlo _]. apply in_band_iff in Hs3 as [_ Hhi].
    apply in_band_iff. split.
    + apply Qlt_le_trans with x1; [exact Hlo|].
      exact (increasing_b_lookup_le w k1 k2 x1 x2 Hw H12 Hx1 Hx2).
    + apply Qle_trans with x3; [|exact Hhi].
      exact (increasing_b_lookup_le w k2 k3 x2 x3 Hw H23 Hx2 Hx3).
  - intros Hedges i i' k k' Hii Hk Hk'.
    apply mask_of_lookup in Hk as (x & Hx & Hs).
    apply mask_of_lookup in Hk' as (x' & Hx' & Hs').
    unfold selects in *.
    destruct (band_edges edges i) as [[lo hi]|] eqn:Ei; [|discriminate].
    destruct (band_edges edges i') as [[lo' hi']|] eqn:Ei'; [|discriminate].
    apply band_edges_Some in Ei as [_ Hhi].
    apply band_edges_Some in Ei' as [Hlo' _].
    apply in_band_iff in Hs as [_ Hxhi].
    apply in_band_iff in Hs' as [Hxlo' _].
    assert (Hlt : x < x').
    { apply Qle_lt_trans with hi; [exact Hxhi|].
      apply Qle_lt_trans with lo'; [|exact Hxlo'].
      apply (increasing_b_lookup_le edges (i + 1) i'); auto. lia. }
    destruct (Nat.lt_ge_cases k k') as [Hkk|Hkk]; [exact Hkk|].
    exfalso. apply (Qlt_irrefl x).
    apply Qlt_le_trans with x'; [exact Hlt|].
    exact (increasing_b_lookup_le w k' k x' x Hw Hkk Hx' Hx).
Qed.

Lemma sum_list_map_plus {A} (f g : A -> nat) (l : list A) :
  sum_list (map (fun a => (f a + g a)%nat) l)
  = (sum_list (map f l) + sum_list (map g l))%nat.
Proof. induction l as [|a l IH]; simpl; [reflexivity|]. rewrite IH. lia. Qed.

Lemma selects_shift (a b : Q) (l : list Q) (i : nat) (x : Q) :
  selects (a :: b :: l) (S i) x = selects (b :: l) i x.
Proof. reflexivity. Qed.

Lemma in_band_empty (a x : Q) : in_band a a x = false.
Proof.
  unfold in_band. destruct (Qlt_bool a x) eqn:H1; [|reflexivity].
  simpl. apply Qle_bool_false_iff. apply Qlt_bool_iff. exact H1.
Qed.

Lemma in_band_split (a b lst x : Q) :
  a < b -> b <= lst ->
  ((if in_band a b x then 1 else 0) + (if in_band b lst x then 1 else 0))%nat
  = (if in_band a lst x then 1 else 0)%nat.
Proof.
  intros Hab Hbl. unfold in_band.
  destruct (Qle_bool x b) eqn:Hxb.
  - apply Qle_bool_iff in Hxb.
    assert (H1 : Qlt_bool b x = false) by (apply Qlt_bool_false_iff; exact Hxb).
    assert (H2 : Qle_bool x lst = true)
      by (apply Qle_bool_iff; exact (Qle_trans _ _ _ Hxb Hbl)).
    rewrite H1, H2. destruct (Qlt_bool a x); reflexivity.
  - apply Qle_bool_false_iff in Hxb.
    assert (H1 : Qlt_bool b x = true) by (apply Qlt_bool_iff; exact Hxb).
    assert (H2 : Qlt_bool a x = true)
      by (apply Qlt_bool_iff; exact (Qlt_trans _ _ _ Hab Hxb)).
    rewrite H1, H2. simpl. destruct (Qle_bool x lst); reflexivity.
Qed.

(** A wavelength is taken by one band when it is in range, by none
    otherwise. *)
Lemma bands_of_sample (edges : list Q) (x : Q) :
  increasing_b edges = true ->
  sum_list (map (fun i => if selects edges i x then 1%nat else 0%nat)
                (seq 0 (length edges - 1)))
  = if in_range edges x then 1%nat else 0%nat.
Proof.
  induction edges as [|a edges IH]; intros Hinc; [reflexivity|].
  destruct edges as [|b edges].
  - simpl. unfold in_range. simpl. rewrite in_band_empty. reflexivity.
  - replace (length (a :: b :: edges) - 1)%nat
      with (S (length (b :: edges) - 1)) by (simpl; lia).
    rewrite <- cons_seq, <- seq_shift, List.map_cons, map_map.
    cbn [sum_list sum_list_with].
    rewrite (map_ext _ (fun i => if selects (b :: edges) i x
                                 then 1%nat else 0%nat))
      by (intros i; rewrite selects_shift; reflexivity).
    rewrite (IH (increasing_b_tail _ _ Hinc)).
    destruct (lookup_lt_is_Some_2 (b :: edges) (pred (length (b :: edges))))
      as [lst Hl]; [simpl; lia|].
    assert (Hlast : last (b :: edges) = Some lst)
      by (rewrite last_lookup; exact Hl).
    unfold in_range.
    change (last (a :: b :: edges)) with (last (b :: edges)).
    rewrite Hlast. simpl head.
    change (selects (a :: b :: edges) 0 x) with (in_band a b x).
    apply in_band_split.
    + exact (increasing_b_head a (b :: edges) 0 b Hinc eq_refl).
    + apply (increasing_b_lookup_le (b :: edges) 0
               (pred (length (b :: edges))));
        [exact (increasing_b_tail _ _ Hinc) | lia | reflexivity | exact Hl].
Qed.

Lemma mask_of_cons_count (edges : list Q) (i : nat) (x : Q) (w : list Q) :
  count_true (mask_of edges i (x :: w))
  = ((if selects edges i x then 1 else 0)
     + count_true (mask_of edges i w))%nat.
Proof.
  unfold mask_of, selects.
  destruct (band_edges edges i) as [[lo hi]|]; [|reflexivity].
  rewrite !band_mask_map. reflexivity.
Qed.

Lemma count_true_le_length (m : list bool) : (count_true m <= length m)%nat.
Proof. induction m as [|[] m IH]; simpl; lia. Qed.

(** For increasing edges, the numbers of samples that the bands pass to
    the fitter add up to the number of samples above the first and at
    most at the last edge: no sample is fitted twice, and never more
    than the grid holds. *)
Theorem bands_share_out_samples (edges w : list Q) :
  increasing_b edges = true ->
  sum_list (map (fun i => count_true (mask_of edges i w))
                (seq 0 (length edges - 1)))
  = count_true (map (in_range edges) w)
  /\ (sum_list (map (fun i => count_true (mask_of edges i w))
                    (seq 0 (length edges - 1)))
      <= length w)%nat.
Proof.
  intros Hinc.
  assert (Heq : sum_list (map (fun i => count_true (mask_of edges i w))
                              (seq 0 (length edges - 1)))
                = count_true (map (in_range edges) w)).
  { induction w as [|x w IH].
    - simpl. induction (seq 0 (length edges - 1)) as [|i l IHl];
        [reflexivity|].
      simpl. rewrite IHl. unfold mask_of.
      destruct (band_edges edges i) as [[lo hi]|]; reflexivity.
    - rewrite (map_ext _ (fun i =>
                 ((if selects edges i x then 1 else 0)
                  + count_true (mask_of edges i w))%nat))
        by (intros i; apply mask_of_cons_count).
      rewrite sum_list_map_plus, IH, (bands_of_sample edges x Hinc).
      simpl. destruct (in_range edges x); reflexivity. }
  split; [exact Heq|].
  rewrite Heq. etransitivity; [apply count_true_le_length|].
  rewrite length_map. apply Nat.le_refl.
Qed.

(** ** What the loop stores in [T] and [C] *)

Lemma stored_init (edges : list Q) (st : store) :
  length (st_S st) = length (st_w st) ->
  stored edges (st_w st) (st_S st) 0
    (set_Sfit (zeros (length (st_S st)))
       (set_T (zeros (length edges - 1))
          (set_C (zeros (length edges - 1)) st))).
Proof.
  intros HS. unfold stored, zeros. simpl. rewrite !repeat_length.
  do 6 (split; [auto|]).
  intros i Hi. split; [lia|].
  intros _. rewrite !repeat_lookup by exact Hi. auto.
Qed.

(** One iteration takes [stored] from band [m] to band [m + 1]; when the
    fitter raises it leaves [T] and [C] as they were. *)
Lemma band_step_stored (edges w Sm : list Q) (m : nat) (st : store) :
  (m < length edges - 1)%nat ->
  stored edges w Sm m st ->
  match band_step edges m st with
  | (inr _, st1) => stored edges w Sm (S m) st1
  | (inl e, st1) =>
      stored edges w Sm m st1
      /\ exists e',
           e = FitError e'
           /\ planckfit (compress (mask_of edges m w) w)
                        (compress (mask_of edges m w) Sm)
                        (map (fun y => y * 0.01)
                             (compress (mask_of edges m w) Sm))
                        (5800.0, 1.0) = inl e'
  end.
Proof.
  intros Hm (Hw & HS & Hlen & HT & HC & HSfit & Hfits).
  destruct (proj1 (band_edges_lt edges m) Hm) as [[lo hi] Hedges].
  rewrite (band_step_run edges m lo hi st Hedges) by (subst; lia).
  rewrite Hw, HS.
  destruct (planckfit _ _ _ _) as [e|[t sc]] eqn:Hfit.
  - split; [|exists e; auto].
    unfold stored. simpl. auto 10.
  - unfold stored.
    cbn [st_w st_S st_T st_C st_Sfit trace log set_Sfit set_C set_T fst snd].
    rewrite scatter_length, !length_insert.
    do 6 (split; [assumption|]).
    intros i Hi. destruct (Hfits i Hi) as [Hbelow Habove]. split.
    + intros Him. destruct (Nat.eq_dec i m) as [->|Hne].
      * exists t, sc. rewrite !list_lookup_insert_eq by lia. auto.
      * destruct Hbelow as (t' & sc' & H1 & H2 & H3); [lia|].
        exists t', sc'. rewrite !list_lookup_insert_ne by lia. auto.
    + intros Hmi. rewrite !list_lookup_insert_ne by lia.
      apply Habove. lia.
Qed.

(** Lines 17-24 on a store whose [S] has the length of [w], for any
    edges: all bands are stored, or the fitter raised on some band [m]
    and the bands from [m] on are still zero. *)
Lemma fit_bands_stored (edges : list Q) (st : store) :
  edges <> [] -> length (st_S st) = length (st_w st) ->
  match fit_bands edges st with
  | (inr _, st') =>
      stored edges (st_w st) (st_S st) (length edges - 1) st'
  | (inl e, st') =>
      exists m e',
        (m < length edges - 1)%nat
        /\ stored edges (st_w st) (st_S st) m st'
        /\ e = FitError e'
        /\ planckfit (compress (mask_of edges m (st_w st)) (st_w st))
                     (compress (mask_of edges m (st_w st)) (st_S st))
                     (map (fun y => y * 0.01)
                          (compress (mask_of edges m (st_w st)) (st_S st)))
                     (5800.0, 1.0) = inl e'
  end.
Proof.
  intros Hne HS.
  unfold fit_bands, mbind, M_bind, bind.
  rewrite (init_fit_run edges st Hne).
  unfold band_loop.
  apply (for_each_seq_inv (stored edges (st_w st) (st_S st))
           (fun e st' =>
              exists m e',
                (m < length edges - 1)%nat
                /\ stored edges (st_w st) (st_S st) m st'
                /\ e = FitError e'
                /\ planckfit
                     (compress (mask_of edges m (st_w st)) (st_w st))
                     (compress (mask_of edges m (st_w st)) (st_S st))
                     (map (fun y => y * 0.01)
                        (compress (mask_of edges m (st_w st)) (st_S st)))
                     (5800.0, 1.0) = inl e')
           (band_step edges) (length edges - 1) 0).
  - apply stored_init. exact HS.
  - intros i st0 Hi Hstored.
    pose proof (band_step_stored edges _ _ i st0 ltac:(lia) Hstored) as Hstep.
    destruct (band_step edges i st0) as [[e|[]] st1]; [|exact Hstep].
    destruct Hstep as (Hst & e' & He & Hfit).
    exists i, e'. split; [lia|]. auto.
Qed.

(** The band fit raises nothing of its own: on a store whose [S] has the
    length of [w] and for at least one edge, it completes or stops on an
    exception that the fitter raised on the data of some band; so it
    completes whenever the fitter returns on every input. *)
Theorem fit_bands_fails_only_in_fitter (edges : list Q) (st : store) :
  edges <> [] -> length (st_S st) = length (st_w st) ->
  (fst (fit_bands edges st) = inr tt
   \/ exists m e',
        (m < length edges - 1)%nat
        /\ fst (fit_bands edges st) = inl (FitError e')
        /\ planckfit (compress (mask_of edges m (st_w st)) (st_w st))
                     (compress (mask_of edges m (st_w st)) (st_S st))
                     (map (fun y => y * 0.01)
                          (compress (mask_of edges m (st_w st)) (st_S st)))
                     (5800.0, 1.0) = inl e')
  /\ ((forall wave fluxd err p0, exists fit,
         planckfit wave fluxd err p0 = inr fit) ->
      fst (fit_bands edges st) = inr tt).
Proof.
  intros Hne HS.
  pose proof (fit_bands_stored edges st Hne HS) as Hout.
  destruct (fit_bands edges st) as [[e|[]] st']; simpl.
  - destruct Hout as (m & e' & Hm & _ & -> & Hfit). split.
    + right. exists m, e'. auto.
    + intros Htotal.
      match type of Hfit with
      | planckfit ?a ?b ?d ?p = _ => destruct (Htotal a b d p) as [fit Hfit']
      end.
      rewrite Hfit' in Hfit. discriminate.
  - split; [left|]; reflexivity.
Qed.

(** When the band fit completes, [T[i]] and [C[i]] hold, for every band
    [i], the pair the fitter returned for that band's wavelengths and
    merged fluxes: no later iteration has overwritten it. *)
Theorem fit_results_stored (edges : list Q) (st st' : store) :
  length (st_S st) = length (st_w st) ->
  fit_bands edges st = (inr tt, st') ->
  forall i, (i < length edges - 1)%nat ->
    exists t sc,
      planckfit (compress (mask_of edges i (st_w st)) (st_w st))
                (compress (mask_of edges i (st_w st)) (st_S st))
                (map (fun y => y * 0.01)
                     (compress (mask_of edges i (st_w st)) (st_S st)))
                (5800.0, 1.0) = inr (t, sc)
      /\ st_T st' !! i = Some t /\ st_C st' !! i = Some sc.
Proof.
  intros HS Hrun i Hi.
  assert (Hne : edges <> []) by (intros ->; simpl in Hi; lia).
  pose proof (fit_bands_stored edges st Hne HS) as Hout.
  rewrite Hrun in Hout.
  destruct Hout as (_ & _ & _ & _ & _ & _ & Hfits).
  destruct (Hfits i Hi) as [Hbelow _]. apply Hbelow. exact Hi.
Qed.

(** When the band fit stops on an exception, the fitter raised it on the
    data of some band [m]; the bands before [m] keep the pairs the fitter
    returned for them, and [T[i]] and [C[i]] are still zero for every
    band [i] from [m] on. *)
Theorem failed_fit_keeps_earlier_bands (edges : list Q) (st st' : store)
    (e : exn E) :
  edges <> [] -> length (st_S st) = length (st_w st) ->
  fit_bands edges st = (inl e, st') ->
  exists m e',
    (m < length edges - 1)%nat
    /\ e = FitError e'
    /\ planckfit (compress (mask_of edges m (st_w st)) (st_w st))
                 (compress (mask_of edges m (st_w st)) (st_S st))
                 (map (fun y => y * 0.01)
                      (compress (mask_of edges m (st_w st)) (st_S st)))
                 (5800.0, 1.0) = inl e'
    /\ (forall i, (i < m)%nat ->
          exists t sc,
            planckfit (compress (mask_of edges i (st_w st)) (st_w st))
                      (compress (mask_of edges i (st_w st)) (st_S st))
                      (map (fun y => y * 0.01)
                           (compress (mask_of edges i (st_w st)) (st_S st)))
                      (5800.0, 1.0) = inr (t, sc)
            /\ st_T st' !! i = Some t /\ st_C st' !! i = Some sc)
    /\ (forall i, (m <= i < length edges - 1)%nat ->
          st_T st' !! i = Some 0 /\ st_C st' !! i = Some 0).
Proof.
  intros Hne HS Hrun.
  pose proof (fit_bands_stored edges st Hne HS) as Hout.
  rewrite Hrun in Hout.
  destruct Hout as (m & e' & Hm & Hstored & He & Hraise).
  destruct Hstored as (_ & _ & _ & _ & _ & _ & Hfits).
  exists m, e'. split; [exact Hm|]. split; [exact He|].
  split; [exact Hraise|]. split.
  - intros i Hi. destruct (Hfits i ltac:(lia)) as [Hbelow _].
    apply Hbelow. exact Hi.
  - intros i [Hmi Hi]. destruct (Hfits i Hi) as [_ Habove].
    apply Habove. exact Hmi.
Qed.

Lemma compress_nil {A} (m : list bool) : compress m (@nil A) = [].
Proof. destruct m; reflexivity. Qed.

(** On an empty spectrum every band is fitted on empty arrays, so the
    fitter's answer to empty arrays decides the run: a pair it returns
    fills every entry of [T] and [C] and the band fit completes; an
    exception it raises stops the run at the first band, with [T] and [C]
    still zero.  [Sfit] is empty either way. *)
Theorem empty_spectrum_fit (edges : list Q) (st : store) :
  (2 <= length edges)%nat -> st_w st = [] -> st_S st = [] ->
  match planckfit [] [] [] (5800.0, 1.0) with
  | inr (t, sc) =>
      exists st',
        fit_bands edges st = (inr tt, st')
        /\ st_T st' = repeat t (length edges - 1)
        /\ st_C st' = repeat sc (length edges - 1)
        /\ st_Sfit st' = []
  | inl e =>
      exists st',
        fit_bands edges st = (inl (FitError e), st')
        /\ st_T st' = zeros (length edges - 1)
        /\ st_C st' = zeros (length edges - 1)
        /\ st_Sfit st' = []
  end.
Proof.
  intros Hn Hw HS.
  assert (Hne : edges <> []) by (intros ->; simpl in Hn; lia).
  assert (Hlen : length (st_S st) = length (st_w st))
    by (rewrite Hw, HS; reflexivity).
  pose proof (fit_bands_stored edges st Hne Hlen) as Hout.
  rewrite Hw, HS in Hout.
  assert (Hfill : forall st1 m (a b : Q),
            stored edges [] [] m st1 ->
            (forall i, (i < m)%nat ->
               st_T st1 !! i = Some a /\ st_C st1 !! i = Some b) ->
            (forall i, (m <= i < length edges - 1)%nat ->
               a = 0 /\ b = 0) ->
            st_T st1 = repeat a (length edges - 1)
            /\ st_C st1 = repeat b (length edges - 1)
            /\ st_Sfit st1 = []).
  { intros st1 m a b (_ & _ & _ & HT & HC & HSfit & Hfits) Hlow Hhigh.
    assert (Hboth : forall i, (i < length edges - 1)%nat ->
              st_T st1 !! i = Some a /\ st_C st1 !! i = Some b).
    { intros i Hi. destruct (Nat.lt_ge_cases i m) as [Him|Him].
      - apply Hlow. exact Him.
      - destruct (Hhigh i ltac:(lia)) as [-> ->].
        destruct (Hfits i Hi) as [_ Habove]. apply Habove. exact Him. }
    split; [|split].
    - apply list_eq. intros i.
      destruct (Nat.lt_ge_cases i (length edges - 1)) as [Hi|Hi].
      + rewrite repeat_lookup by exact Hi. apply Hboth. exact Hi.
      + rewrite !lookup_ge_None_2; [reflexivity| |lia].
        rewrite repeat_length. exact Hi.
    - apply list_eq. intros i.
      destruct (Nat.lt_ge_cases i (length edges - 1)) as [Hi|Hi].
      + rewrite repeat_lookup by exact Hi. apply Hboth. exact Hi.
      + rewrite !lookup_ge_None_2; [reflexivity| |lia].
        rewrite repeat_length. exact Hi.
    - destruct (st_Sfit st1); [reflexivity|discriminate]. }
  destruct (planckfit [] [] [] (5800.0, 1.0)) as [e|[t sc]] eqn:Hfit.
  - destruct (fit_bands edges st) as [[e0|[]] st1].
    + destruct Hout as (m & e' & Hm & Hstored & -> & Hraise).
      rewrite !compress_nil in Hraise. simpl in Hraise.
      rewrite Hfit in Hraise. injection Hraise as <-.
      exists st1. split; [reflexivity|].
      apply (Hfill st1 m 0 0 Hstored); [|auto].
      intros i Hi. exfalso.
      destruct Hstored as (_ & _ & _ & _ & _ & _ & Hfits).
      destruct (Hfits i ltac:(lia)) as [Hbelow _].
      destruct (Hbelow Hi) as (t' & sc' & H1 & _).
      rewrite !compress_nil in H1. simpl in H1.
      rewrite Hfit in H1. discriminate.
    + exfalso.
      destruct Hout as (_ & _ & _ & _ & _ & _ & Hfits).
      destruct (Hfits 0%nat ltac:(lia)) as [Hbelow _].
      destruct Hbelow as (t' & sc' & H1 & _); [lia|].
      rewrite !compress_nil in H1. simpl in H1.
      rewrite Hfit in H1. discriminate.
  - destruct (fit_bands edges st) as [[e0|[]] st1].
    + exfalso. destruct Hout as (m & e' & _ & _ & _ & Hraise).
      rewrite !compress_nil in Hraise. simpl in Hraise.
      rewrite Hfit in Hraise. discriminate.
    + exists st1. split; [reflexivity|].
      apply (Hfill st1 (length edges - 1)%nat t sc Hout); [|lia].
      intros i Hi.
      destruct Hout as (_ & _ & _ & _ & _ & _ & Hfits).
      destruct (Hfits i Hi) as [Hbelow _].
      destruct (Hbelow Hi) as (t' & sc' & H1 & H2 & H3).
      rewrite !compress_nil in H1. simpl in H1.
      rewrite Hfit in H1. injection H1 as <- <-. auto.
Qed.

(** ** How iterations compose *)

Lemma scatter_comm {A} (j j' : list bool) (v v' a : list A) :
  (forall k, ~ (j !! k = Some true /\ j' !! k = Some true)) ->
  length v = count_true j -> length v' = count_true j' ->
  scatter j v (scatter j' v' a) = scatter j' v' (scatter j v a).
Proof.
  revert j j' v v'. induction a as [|y a IH]; intros j j' v v' Hdis Hv Hv'.
  - destruct j as [|[] j]; destruct j' as [|[] j']; reflexivity.
  - destruct j as [|b j]; [destruct j' as [|[] j']; reflexivity|].
    destruct j' as [|b' j']; [destruct b; reflexivity|].
    assert (Hdis' : forall k, ~ (j !! k = Some true /\ j' !! k = Some true))
      by (intros k; exact (Hdis (S k))).
    destruct b, b'; simpl in *.
    + exfalso. apply (Hdis 0%nat). auto.
    + destruct v as [|x v]; [discriminate|]. simpl.
      f_equal. apply IH; auto.
    + destruct v' as [|x' v']; [discriminate|]. simpl.
      f_equal. apply IH; auto.
    + f_equal. apply IH; auto.
Qed.

Lemma scatter_idem {A} (j : list bool) (v a : list A) :
  length v = count_true j ->
  scatter j v (scatter j v a) = scatter j v a.
Proof.
  revert j v. induction a as [|y a IH]; intros j v Hv.
  - destruct j as [|[] j]; reflexivity.
  - destruct j as [|[] j]; [reflexivity| |].
    + destruct v as [|x v]; [discriminate|]. simpl in *.
      f_equal. apply IH. lia.
    + simpl in *. f_equal. apply IH. exact Hv.
Qed.

(** A completed iteration, read backwards: what the fitter returned and
    what the arrays hold afterwards. *)
Lemma band_step_inv (edges : list Q) (i : nat) (st st1 : store) :
  (i < length edges - 1)%nat ->
  length (st_S st) = length (st_w st) ->
  (i < length (st_T st))%nat -> (i < length (st_C st))%nat ->
  length (st_Sfit st) = length (st_w st) ->
  band_step edges i st = (inr tt, st1) ->
  exists t sc,
    planckfit (compress (mask_of edges i (st_w st)) (st_w st))
              (compress (mask_of edges i (st_w st)) (st_S st))
              (map (fun y => y * 0.01)
                   (compress (mask_of edges i (st_w st)) (st_S st)))
              (5800.0, 1.0) = inr (t, sc)
    /\ st_w st1 = st_w st /\ st_S st1 = st_S st
    /\ st_T st1 = <[i := t]> (st_T st)
    /\ st_C st1 = <[i := sc]> (st_C st)
    /\ st_Sfit st1
       = scatter (mask_of edges i (st_w st))
           (map (fun x => Planck x t * sc)
                (compress (mask_of edges i (st_w st)) (st_w st)))
           (st_Sfit st).
Proof.
  intros Hi HS HT HC HSfit Hrun.
  destruct (proj1 (band_edges_lt edges i) Hi) as [[lo hi] Hedges].
  rewrite (band_step_run edges i lo hi st Hedges HS HT HC HSfit) in Hrun.
  destruct (planckfit _ _ _ _) as [e|[t sc]]; [discriminate|].
  injection Hrun as <-. exists t, sc. simpl. rewrite map_map. auto 10.
Qed.

Lemma band_step_ok (edges : list Q) (i : nat) (st : store) (t sc : Q) :
  (i < length edges - 1)%nat ->
  length (st_S st) = length (st_w st) ->
  (i < length (st_T st))%nat -> (i < length (st_C st))%nat ->
  length (st_Sfit st) = length (st_w st) ->
  planckfit (compress (mask_of edges i (st_w st)) (st_w st))
            (compress (mask_of edges i (st_w st)) (st_S st))
            (map (fun y => y * 0.01)
                 (compress (mask_of edges i (st_w st)) (st_S st)))
            (5800.0, 1.0) = inr (t, sc) ->
  exists st1,
    band_step edges i st = (inr tt, st1)
    /\ st_w st1 = st_w st /\ st_S st1 = st_S st
    /\ st_T st1 = <[i := t]> (st_T st)
    /\ st_C st1 = <[i := sc]> (st_C st)
    /\ st_Sfit st1
       = scatter (mask_of edges i (st_w st))
           (map (fun x => Planck x t * sc)
                (compress (mask_of edges i (st_w st)) (st_w st)))
           (st_Sfit st).
Proof.
  intros Hi HS HT HC HSfit Hfit.
  destruct (proj1 (band_edges_lt edges i) Hi) as [[lo hi] Hedges].
  rewrite (band_step_run edges i lo hi st Hedges HS HT HC HSfit).
  rewrite Hfit. eexists. split; [reflexivity|].
  simpl. rewrite map_map. auto 10.
Qed.

Lemma mask_of_length (edges : list Q) (i : nat) (w : list Q) :
  (i < length edges - 1)%nat -> length (mask_of edges i w) = length w.
Proof.
  intros Hi. destruct (proj1 (band_edges_lt edges i) Hi) as [[lo hi] Hedges].
  unfold mask_of. rewrite Hedges. apply band_mask_length.
Qed.

Lemma masks_disjoint (edges w : list Q) (i i' : nat) :
  increasing_b edges = true -> i <> i' ->
  forall k, ~ (mask_of edges i w !! k = Some true
               /\ mask_of edges i' w !! k = Some true).
Proof.
  intros Hinc Hne k [H1 H2].
  apply mask_of_lookup in H1 as (x & Hx & Hs).
  apply mask_of_lookup in H2 as (x' & Hx' & Hs').
  assert (x' = x) by congruence; subst x'.
  exact (selects_disjoint _ _ _ _ Hinc Hne Hs Hs').
Qed.

(** Two different bands in one order, when both iterations complete,
    complete in the other order too and leave the same arrays. *)
Lemma band_steps_swap (edges : list Q) (i i' : nat) (st st2 : store) :
  increasing_b edges = true -> i <> i' ->
  (i < length edges - 1)%nat -> (i' < length edges - 1)%nat ->
  length (st_S st) = length (st_w st) ->
  length (st_T st) = (length edges - 1)%nat ->
  length (st_C st) = (length edges - 1)%nat ->
  length (st_Sfit st) = length (st_w st) ->
  (band_step edges i;; band_step edges i') st = (inr tt, st2) ->
  exists st2',
    (band_step edges i';; band_step edges i) st = (inr tt, st2')
    /\ st_w st2' = st_w st2 /\ st_S st2' = st_S st2
    /\ st_T st2' = st_T st2 /\ st_C st2' = st_C st2
    /\ st_Sfit st2' = st_Sfit st2.
Proof.
  intros Hinc Hne Hi Hi' HS HT HC HSfit Hrun.
  unfold mbind, M_bind, bind in *.
  destruct (band_step edges i st) as [[e|[]] st1] eqn:Hstep1;
    [discriminate|].
  destruct (band_step_inv edges i st st1 Hi HS ltac:(lia) ltac:(lia)
              HSfit Hstep1)
    as (t & sc & Hfit & Hw1 & HS1 & HT1 & HC1 & HF1).
  assert (Hstep2 : band_step edges i' st1 = (inr tt, st2)) by exact Hrun.
  destruct (band_step_inv edges i' st1 st2 Hi')
    as (t' & sc' & Hfit' & Hw2 & HS2 & HT2 & HC2 & HF2);
    [rewrite Hw1, HS1; exact HS
    |rewrite HT1, length_insert; lia
    |rewrite HC1, length_insert; lia
    |rewrite HF1, scatter_length, Hw1; exact HSfit
    |exact Hstep2|].
  rewrite Hw1, HS1 in Hfit'. rewrite Hw1 in HF2.
  destruct (band_step_ok edges i' st t' sc' Hi' HS ltac:(lia) ltac:(lia)
              HSfit Hfit')
    as (st1' & Hstep1' & Hw1' & HS1' & HT1' & HC1' & HF1').
  rewrite Hstep1'.
  destruct (band_step_ok edges i st1' t sc Hi)
    as (st2' & Hstep2' & Hw2' & HS2' & HT2' & HC2' & HF2');
    [rewrite Hw1', HS1'; exact HS
    |rewrite HT1', length_insert; lia
    |rewrite HC1', length_insert; lia
    |rewrite HF1', scatter_length, Hw1'; exact HSfit
    |rewrite Hw1', HS1'; exact Hfit|].
  exists st2'. split; [exact Hstep2'|].
  rewrite Hw1' in HF2'.
  split; [congruence|]. split; [congruence|].
  split; [|split].
  - rewrite HT2', HT1', HT2, HT1. apply list_insert_insert_ne. congruence.
  - rewrite HC2', HC1', HC2, HC1. apply list_insert_insert_ne. congruence.
  - rewrite HF2', HF1', HF2, HF1.
    apply scatter_comm.
    + apply masks_disjoint; assumption.
    + rewrite length_map. apply compress_length.
      apply mask_of_length. exact Hi.
    + rewrite length_map. apply compress_length.
      apply mask_of_length. exact Hi'.
Qed.

(** For increasing edges the iterations of two different bands commute:
    run in either order from a store with the loop's array lengths, they
    complete together, and then leave the same [w], [S], [T], [C] and
    [Sfit]. *)
Theorem band_steps_commute (edges : list Q) (i i' : nat) (st : store) :
  increasing_b edges = true -> i <> i' ->
  (i < length edges - 1)%nat -> (i' < length edges - 1)%nat ->
  length (st_S st) = length (st_w st) ->
  length (st_T st) = (length edges - 1)%nat ->
  length (st_C st) = (length edges - 1)%nat ->
  length (st_Sfit st) = length (st_w st) ->
  let ab := (band_step edges i;; band_step edges i') st in
  let ba := (band_step edges i';; band_step edges i) st in
  (fst ab = inr tt <-> fst ba = inr tt)
  /\ (fst ab = inr tt ->
      st_w (snd ab) = st_w (snd ba) /\ st_S (snd ab) = st_S (snd ba)
      /\ st_T (snd ab) = st_T (snd ba) /\ st_C (snd ab) = st_C (snd ba)
      /\ st_Sfit (snd ab) = st_Sfit (snd ba)).
Proof.
  intros Hinc Hne Hi Hi' HS HT HC HSfit ab ba.
  split; [split|].
  - intros Hab. destruct ab as [r st2] eqn:Eab. simpl in Hab. subst r.
    destruct (band_steps_swap edges i i' st st2 Hinc Hne Hi Hi' HS HT HC
                HSfit Eab) as (st2' & Hba & _).
    unfold ba. rewrite Hba. reflexivity.
  - intros Hba. destruct ba as [r st2] eqn:Eba. simpl in Hba. subst r.
    destruct (band_steps_swap edges i' i st st2 Hinc (not_eq_sym Hne) Hi' Hi
                HS HT HC HSfit Eba) as (st2' & Hab & _).
    unfold ab. rewrite Hab. reflexivity.
  - intros Hab. destruct ab as [r st2] eqn:Eab. simpl in Hab. subst r.
    destruct (band_steps_swap edges i i' st st2 Hinc Hne Hi Hi' HS HT HC
                HSfit Eab) as (st2' & Hba & H1 & H2 & H3 & H4 & H5).
    unfold ba. rewrite Hba. simpl. auto.
Qed.

(** Running the iteration of a band a second time calls the fitter on
    the same data and stores the same values again: when the first run
    completes so does the second, and no array differs from what the
    first run left. *)
Theorem band_step_twice (edges : list Q) (i : nat) (st st1 : store) :
  (i < length edges - 1)%nat ->
  length (st_S st) = length (st_w st) ->
  length (st_T st) = (length edges - 1)%nat ->
  length (st_C st) = (length edges - 1)%nat ->
  length (st_Sfit st) = length (st_w st) ->
  band_step edges i st = (inr tt, st1) ->
  exists st2,
    band_step edges i st1 = (inr tt, st2)
    /\ st_w st2 = st_w st1 /\ st_S st2 = st_S st1
    /\ st_T st2 = st_T st1 /\ st_C st2 = st_C st1
    /\ st_Sfit st2 = st_Sfit st1.
Proof.
  intros Hi HS HT HC HSfit Hstep1.
  destruct (band_step_inv edges i st st1 Hi HS ltac:(lia) ltac:(lia)
              HSfit Hstep1)
    as (t & sc & Hfit & Hw1 & HS1 & HT1 & HC1 & HF1).
  destruct (band_step_ok edges i st1 t sc Hi)
    as (st2 & Hstep2 & Hw2 & HS2 & HT2 & HC2 & HF2);
    [rewrite Hw1, HS1; exact HS
    |rewrite HT1, length_insert; lia
    |rewrite HC1, length_insert; lia
    |rewrite HF1, scatter_length, Hw1; exact HSfit
    |rewrite Hw1, HS1; exact Hfit|].
  exists st2. split; [exact Hstep2|].
  split; [exact Hw2|]. split; [exact HS2|].
  split; [|split].
  - rewrite HT2, HT1. apply list_insert_insert_eq.
  - rewrite HC2, HC1. apply list_insert_insert_eq.
  - rewrite HF2, HF1, Hw1. apply scatter_idem.
    rewrite length_map. apply compress_length.
    apply mask_of_length. exact Hi.
Qed.

(** ** Coverage by the script's edges, and the plotted ratio *)

(** When every loaded wavelength is above 0 and at most 1000 and the
    script completes, every sample lies in exactly one of the 8 bands,
    its entry of [Sfit] was stored into exactly once, and it holds that
    band's [Planck(w[k], T[i]) * C[i]]: no entry is left at its initial
    zero for want of a band. *)
Theorem script_covers_every_sample (st : store) :
  script empty_store = (inr tt, st) ->
  (forall k x, fst e490 !! k = Some x -> 0 < x /\ x <= 1000) ->
  forall k x,
    fst e490 !! k = Some x ->
    exists i,
      (i < 8)%nat
      /\ mask_of wr i (fst e490) !! k = Some true
      /\ (forall i', mask_of wr i' (fst e490) !! k = Some true -> i' = i)
      /\ Sfit_writes k (trace st) = 1%nat
      /\ exists t sc,
           st_T st !! i = Some t /\ st_C st !! i = Some sc
           /\ st_Sfit st !! k = Some (Planck x t * sc).
Proof.
  intros Hrun Hrange k x Hx.
  pose proof script_outcome as Hout. rewrite Hrun in Hout.
  destruct Hout as (_ & _ & _ & _ & _ & _ & _ & Hpos).
  destruct (Hrange k x Hx) as [H0 H1000].
  destruct (selects_cover wr x 0 1000 eq_refl eq_refl H0 H1000)
    as (i & Hi & Hsel).
  change (length wr - 1)%nat with 8%nat in Hi.
  exists i. split; [exact Hi|].
  split; [apply mask_of_lookup; eauto|].
  split.
  - intros i' Hi'.
    apply mask_of_lookup in Hi' as (x' & Hx' & Hsel').
    assert (x' = x) by congruence; subst x'.
    destruct (Nat.eq_dec i' i) as [Heq|Hne]; [exact Heq|].
    exfalso. exact (selects_disjoint wr i' i x wr_increasing Hne Hsel' Hsel).
  - destruct (Hpos k x Hx) as [Hcov _].
    destruct (Hcov i Hi Hsel) as (Hone & t & sc & Ht & Hc & Hv).
    split; [exact Hone|]. exists t, sc. auto.
Qed.

Lemma np_truediv_same_length (a b : list Q) :
  length a = length b -> np_truediv a b = inr (zip_with np_div a b).
Proof. intros H. unfold np_truediv. rewrite H, Nat.eqb_refl. reflexivity. Qed.

(** After a completed script the ratio [Sfit / S] handed to the plot is
    computed without a shape error and has one entry per sample.  Where
    the merged flux is zero the entry is not finite; elsewhere it is the
    quotient of the two entries, which is zero at a sample that no band
    takes. *)
Theorem plotted_ratio (st : store) :
  script empty_store = (inr tt, st) ->
  exists r,
    plot_ratio st = (inr r, st)
    /\ length r = length (fst e490)
    /\ forall k x y,
         fst e490 !! k = Some x -> st_S st !! k = Some y ->
         (y == 0 -> r !! k = Some None)
         /\ (~ y == 0 ->
             exists f,
               st_Sfit st !! k = Some f
               /\ r !! k = Some (Some (f / y))
               /\ ((forall i, mask_of wr i (fst e490) !! k <> Some true) ->
                   f / y == 0)).
Proof.
  intros Hrun.
  pose proof script_outcome as Hout. rewrite Hrun in Hout.
  destruct Hout as (Hw & _ & Hlen & _ & _ & HSfit & _ & Hpos).
  exists (zip_with np_div (st_Sfit st) (st_S st)).
  split; [|split].
  - unfold plot_ratio, mbind, M_bind, bind, gets, lift. simpl.
    rewrite np_truediv_same_length by lia. reflexivity.
  - rewrite length_zip_with. lia.
  - intros k x y Hx Hy.
    destruct (lookup_lt_is_Some_2 (st_Sfit st) k) as [f Hf];
      [rewrite HSfit; exact (lookup_lt_Some _ _ _ Hx)|].
    assert (Hr : zip_with np_div (st_Sfit st) (st_S st) !! k
                 = Some (np_div f y))
      by (apply lookup_zip_with_Some; exists f, y; auto).
    rewrite Hr. unfold np_div. split.
    + intros Hy0. apply Qeq_bool_iff in Hy0. rewrite Hy0. reflexivity.
    + intros Hy0.
      destruct (Qeq_bool y 0) eqn:Hb;
        [apply Qeq_bool_iff in Hb; contradiction|].
      exists f. split; [exact Hf|]. split; [reflexivity|].
      intros Hnone.
      destruct (Hpos k x Hx) as [_ Hunc].
      destruct Hunc as [_ Hzero].
      { intros i _. destruct (selects wr i x) eqn:Hsel; [|reflexivity].
        exfalso. apply (Hnone i). apply mask_of_lookup. eauto. }
      assert (f = 0) by congruence. subst f.
      unfold Qdiv. apply Qmult_0_l.
Qed.

(** ** The record of a run, and what the band fit leaves alone *)

Lemma band_step_trace (edges : list Q) (i : nat) (st : store) :
  (i < length edges - 1)%nat ->
  length (st_S st) = length (st_w st) ->
  (i < length (st_T st))%nat -> (i < length (st_C st))%nat ->
  length (st_Sfit st) = length (st_w st) ->
  match band_step edges i st with
  | (inr _, st1) =>
      trace st1 = trace st ++ band_events edges (st_w st) (st_S st) i
      /\ st_w st1 = st_w st /\ st_S st1 = st_S st
      /\ length (st_T st1) = length (st_T st)
      /\ length (st_C st1) = length (st_C st)
      /\ length (st_Sfit st1) = length (st_Sfit st)
  | (inl _, st1) =>
      trace st1 = trace st ++ [call_of edges (st_w st) (st_S st) i]
  end.
Proof.
  intros Hi HS HT HC HSfit.
  destruct (proj1 (band_edges_lt edges i) Hi) as [[lo hi] Hedges].
  rewrite (band_step_run edges i lo hi st Hedges HS HT HC HSfit).
  destruct (planckfit _ _ _ _) as [e|fit]; [reflexivity|].
  cbn [st_w st_S st_T st_C st_Sfit trace log set_Sfit set_C set_T].
  rewrite scatter_length, !length_insert.
  split; [|auto 10].
  unfold band_events, call_of. rewrite <- !app_assoc. reflexivity.
Qed.

(** The trace of the band fit, from a store whose [S] has the length of
    [w]: a completed run has recorded, band after band in the order of
    the bands, the fitter call, the store into [T[i]], the store into
    [C[i]] and then the stores into the band's entries of [Sfit]; a run
    that the fitter stopped at band [m] has recorded the same for the
    bands before [m], and then the call that raised. *)
Theorem trace_of_band_fit (edges : list Q) (st : store) :
  edges <> [] -> length (st_S st) = length (st_w st) ->
  match fit_bands edges st with
  | (inr _, st') =>
      trace st'
      = trace st
        ++ concat (map (band_events edges (st_w st) (st_S st))
                       (seq 0 (length edges - 1)))
  | (inl _, st') =>
      exists m,
        (m < length edges - 1)%nat
        /\ trace st'
           = trace st
             ++ concat (map (band_events edges (st_w st) (st_S st))
                            (seq 0 m))
             ++ [call_of edges (st_w st) (st_S st) m]
  end.
Proof.
  intros Hne HS.
  unfold fit_bands, mbind, M_bind, bind.
  rewrite (init_fit_run edges st Hne).
  unfold band_loop.
  set (w := st_w st). set (Sm := st_S st). set (tr := trace st).
  set (st0 := set_Sfit _ _).
  assert (Hloop :
    match for_each (band_step edges) (seq 0 (length edges - 1)) st0 with
    | (inr _, st1) =>
        st_w st1 = w /\ st_S st1 = Sm
        /\ length (st_T st1) = (length edges - 1)%nat
        /\ length (st_C st1) = (length edges - 1)%nat
        /\ length (st_Sfit st1) = length w
        /\ trace st1
           = tr ++ concat (map (band_events edges w Sm)
                               (seq 0 (0 + (length edges - 1))))
    | (inl _, st1) =>
        exists m,
          (m < length edges - 1)%nat
          /\ trace st1
             = tr ++ concat (map (band_events edges w Sm) (seq 0 m))
                  ++ [call_of edges w Sm m]
    end).
  { apply (for_each_seq_inv
             (fun m st1 =>
                st_w st1 = w /\ st_S st1 = Sm
                /\ length (st_T st1) = (length edges - 1)%nat
                /\ length (st_C st1) = (length edges - 1)%nat
                /\ length (st_Sfit st1) = length w
                /\ trace st1
                   = tr ++ concat (map (band_events edges w Sm) (seq 0 m)))
             (fun _ st1 =>
                exists m,
                  (m < length edges - 1)%nat
                  /\ trace st1
                     = tr ++ concat (map (band_events edges w Sm) (seq 0 m))
                          ++ [call_of edges w Sm m])
             (band_step edges) (length edges - 1) 0).
    - unfold st0, zeros. simpl. rewrite !repeat_length, app_nil_r.
      fold w Sm tr. auto 10.
    - intros i st1 Hi (Hw & HS0 & HT & HC & HSfit & Htr).
      pose proof (band_step_trace edges i st1 ltac:(lia)
                    ltac:(rewrite Hw, HS0; exact HS) ltac:(lia) ltac:(lia)
                    ltac:(rewrite Hw; exact HSfit)) as Hstep.
      rewrite Hw, HS0 in Hstep.
      destruct (band_step edges i st1) as [[e|[]] st2].
      + exists i. split; [lia|].
        rewrite Hstep, Htr, <- app_assoc. reflexivity.
      + destruct Hstep as (Htr1 & Hw1 & HS1 & HT1 & HC1 & HF1).
        rewrite Hw1, HS1, HT1, HC1, HF1.
        do 2 (split; [reflexivity|]). do 3 (split; [assumption|]).
        rewrite Htr1, Htr, seq_snoc, map_app, concat_app. simpl.
        rewrite app_nil_r, <- app_assoc. reflexivity. }
  destruct (for_each (band_step edges) (seq 0 (length edges - 1)) st0)
    as [[e|[]] st1].
  - exact Hloop.
  - destruct Hloop as (_ & _ & _ & _ & _ & Htr). exact Htr.
Qed.

#[local] Instance same_inputs_refl : Reflexive same_inputs.
Proof. intros st. unfold same_inputs. auto. Qed.

#[local] Instance same_inputs_trans : Transitive same_inputs.
Proof.
  intros st1 st2 st3 (H1 & H2 & H3 & H4 & H5) (H1' & H2' & H3' & H4' & H5').
  unfold same_inputs. repeat split; congruence.
Qed.

Lemma band_step_same_inputs (edges : list Q) (i : nat) :
  steps same_inputs (band_step edges i).
Proof.
  intros st.
  destruct (band_step_touches edges i st) as (H1 & H2 & H3 & H4 & H5 & _).
  unfold same_inputs. auto.
Qed.

Lemma for_each_steps (R : store -> store -> Prop) (body : nat -> M unit)
    (r : list nat) :
  Reflexive R -> Transitive R ->
  (forall i, steps R (body i)) -> steps R (for_each body r).
Proof.
  intros HR HT Hbody. induction r as [|i r IH]; simpl.
  - apply steps_ret. exact HR.
  - apply steps_bind; [exact HT | apply Hbody | intros _; exact IH].
Qed.

Lemma init_fit_same_inputs (edges : list Q) :
  steps same_inputs (init_fit edges).
Proof.
  intros st. destruct edges as [|e0 edges]; simpl; [reflexivity|].
  unfold same_inputs. simpl. auto.
Qed.

(** Whatever the edges, the store it starts from and its outcome, the
    band fit assigns to none of [w], [s], [kern], [ss] and [S]. *)
Theorem fit_bands_keeps_inputs (edges : list Q) (st : store) :
  st_w (snd (fit_bands edges st)) = st_w st
  /\ st_s (snd (fit_bands edges st)) = st_s st
  /\ st_kern (snd (fit_bands edges st)) = st_kern st
  /\ st_ss (snd (fit_bands edges st)) = st_ss st
  /\ st_S (snd (fit_bands edges st)) = st_S st.
Proof.
  assert (H : steps same_inputs (fit_bands edges)).
  { unfold fit_bands. apply steps_bind.
    - apply same_inputs_trans.
    - apply init_fit_same_inputs.
    - intros _. unfold band_loop. apply for_each_steps.
      + apply same_inputs_refl.
      + apply same_inputs_trans.
      + intros i. apply band_step_same_inputs. }
  exact (H st).
Qed.

(** ** The calls of the fitter *)

(** Lines 17-24 on a store whose [S] has the length of [w]: the fitter is
    called for the bands in order until it raises, every pair it returns
    is stored, and the trace records exactly these calls. *)
Lemma fit_bands_run (edges : list Q) (st : store) :
  edges <> [] -> length (st_S st) = length (st_w st) ->
  match fit_bands edges st with
  | (inr _, st') =>
      stored edges (st_w st) (st_S st) (length edges - 1) st'
      /\ fit_calls (trace st')
         = fit_calls (trace st)
           ++ map (call_of edges (st_w st) (st_S st))
                  (seq 0 (length edges - 1))
  | (inl e, st') =>
      exists m e',
        (m < length edges - 1)%nat
        /\ stored edges (st_w st) (st_S st) m st'
        /\ e = FitError e'
        /\ planckfit (compress (mask_of edges m (st_w st)) (st_w st))
                     (compress (mask_of edges m (st_w st)) (st_S st))
                     (map (fun y => y * 0.01)
                          (compress (mask_of edges m (st_w st)) (st_S st)))
                     (5800.0, 1.0) = inl e'
        /\ fit_calls (trace st')
           = fit_calls (trace st)
             ++ map (call_of edges (st_w st) (st_S st)) (seq 0 (S m))
  end.
Proof.
  intros Hne HS.
  unfold fit_bands, mbind, M_bind, bind.
  rewrite (init_fit_run edges st Hne).
  unfold band_loop.
  set (w := st_w st). set (Sm := st_S st). set (tr := trace st).
  set (st0 := set_Sfit _ _).
  apply (for_each_seq_inv
           (fun m st1 =>
              stored edges w Sm m st1
              /\ fit_calls (trace st1)
                 = fit_calls tr ++ map (call_of edges w Sm) (seq 0 m))
           (fun e st1 =>
              exists m e',
                (m < length edges - 1)%nat
                /\ stored edges w Sm m st1
                /\ e = FitError e'
                /\ planckfit (compress (mask_of edges m w) w)
                             (compress (mask_of edges m w) Sm)
                             (map (fun y => y * 0.01)
                                  (compress (mask_of edges m w) Sm))
                             (5800.0, 1.0) = inl e'
                /\ fit_calls (trace st1)
                   = fit_calls tr ++ map (call_of edges w Sm) (seq 0 (S m)))
           (band_step edges) (length edges - 1) 0).
  - split; [apply stored_init; exact HS|].
    unfold st0. simpl. fold tr. rewrite app_nil_r. reflexivity.
  - intros i st1 Hi [Hstored Hcalls].
    pose proof (band_step_stored edges w Sm i st1 ltac:(lia) Hstored)
      as Hstep.
    destruct Hstored as (Hw & HS1 & Hlen & HT & HC & HSfit & _).
    pose proof (band_step_trace edges i st1 ltac:(lia)
                  ltac:(rewrite Hw, HS1; exact Hlen) ltac:(lia) ltac:(lia)
                  ltac:(rewrite Hw; exact HSfit)) as Htrace.
    rewrite Hw, HS1 in Htrace.
    destruct (band_step edges i st1) as [[e|[]] st2].
    + destruct Hstep as (Hst & e' & He & Hraise).
      exists i, e'. split; [lia|]. do 3 (split; [assumption|]).
      rewrite Htrace, fit_calls_app, Hcalls, seq_snoc, map_app, <- app_assoc.
      reflexivity.
    + split; [exact Hstep|].
      destruct Htrace as (Htr2 & _).
      rewrite Htr2, fit_calls_app, Hcalls, seq_snoc, map_app, <- app_assoc.
      f_equal. unfold band_events.
      rewrite fit_calls_app, fit_calls_stores, app_nil_r. reflexivity.
Qed.

(** C9. The loop ranges over the 8 bands of the fixed edges.  After
    lines 9-15 have completed with wavelengths [w] and merged flux [S]:
    when the fitter returns on the data of each of the 8 bands, the
    script completes having called it exactly 8 times, once per band in
    order, each time with the wavelengths and merged fluxes under the
    band's mask, an uncertainty of 0.01 times each of these fluxes and
    the guess (5800, 1), and [T[i]], [C[i]] hold the pair returned by the
    call of band [i]; when the fitter first raises on band [m], the
    script stops on that exception after exactly these calls for the
    bands [0 .. m]. *)
Theorem band_fits_called (st1 : store) :
  prelude empty_store = (inr tt, st1) ->
  let w := st_w st1 in
  let Sm := st_S st1 in
  let fit_of := fun i =>
    planckfit (compress (mask_of wr i w) w) (compress (mask_of wr i w) Sm)
              (map (fun y => y * 0.01) (compress (mask_of wr i w) Sm))
              (5800.0, 1.0) in
  let call := fun i =>
    EvFit (compress (mask_of wr i w) w) (compress (mask_of wr i w) Sm)
          (map (fun y => y * 0.01) (compress (mask_of wr i w) Sm))
          (5800.0, 1.0) in
  seq 0 (length wr - 1) = [0; 1; 2; 3; 4; 5; 6; 7]%nat
  /\ map (band_edges wr) (seq 0 8)
     = [Some (0, 0.25); Some (0.25, 0.3); Some (0.3, 0.4); Some (0.4, 0.6);
        Some (0.6, 1.0); Some (1.0, 3); Some (3, 15); Some (15, 1000)]
  /\ ((forall i, (i < 8)%nat -> exists fit, fit_of i = inr fit) ->
      exists st,
        script empty_store = (inr tt, st)
        /\ fit_calls (trace st) = map call (seq 0 8)
        /\ forall i, (i < 8)%nat ->
             exists t sc,
               fit_of i = inr (t, sc)
               /\ st_T st !! i = Some t /\ st_C st !! i = Some sc)
  /\ (forall m e,
        (m < 8)%nat ->
        (forall i, (i < m)%nat -> exists fit, fit_of i = inr fit) ->
        fit_of m = inl e ->
        exists st,
          script empty_store = (inl (FitError e), st)
          /\ fit_calls (trace st) = map call (seq 0 (S m))).
Proof.
  intros Hpre w Sm fit_of call.
  split; [reflexivity|]. split; [reflexivity|].
  pose proof prelude_outcome as Hout. rewrite Hpre in Hout.
  destruct Hout as (_ & HS & Htr).
  assert (Hscript : script empty_store = fit_bands wr st1)
    by (unfold script, mbind, M_bind, bind; rewrite Hpre; reflexivity).
  pose proof (fit_bands_run wr st1 ltac:(discriminate) HS) as Hrun.
  rewrite Htr in Hrun. simpl app in Hrun.
  change (length wr - 1)%nat with 8%nat in Hrun.
  fold w Sm in Hrun. rewrite Hscript.
  split.
  - intros Hall.
    destruct (fit_bands wr st1) as [[e|[]] st].
    + exfalso. destruct Hrun as (m & e' & Hm & _ & _ & Hraise & _).
      destruct (Hall m Hm) as [fit Hfit]. unfold fit_of in Hfit.
      rewrite Hfit in Hraise. discriminate.
    + exists st. split; [reflexivity|].
      destruct Hrun as [Hstored Hcalls]. split; [exact Hcalls|].
      intros i Hi.
      destruct Hstored as (_ & _ & _ & _ & _ & _ & Hfits).
      destruct (Hfits i Hi) as [Hbelow _]. exact (Hbelow Hi).
  - intros m e Hm Hbefore Hraise.
    destruct (fit_bands wr st1) as [[e0|[]] st].
    + destruct Hrun as (m' & e' & Hm' & Hstored & -> & Hraise' & Hcalls).
      assert (m' = m).
      { destruct (Nat.lt_total m' m) as [Hlt|[Heq|Hgt]]; [|exact Heq|].
        - exfalso. destruct (Hbefore m' Hlt) as [fit Hfit].
          unfold fit_of in Hfit. rewrite Hfit in Hraise'. discriminate.
        - exfalso.
          destruct Hstored as (_ & _ & _ & _ & _ & _ & Hfits).
          destruct (Hfits m Hm) as [Hbelow _].
          destruct (Hbelow Hgt) as (t & sc & Hfit & _).
          unfold fit_of in Hraise. rewrite Hfit in Hraise. discriminate. }
      subst m'. unfold fit_of in Hraise. rewrite Hraise in Hraise'.
      injection Hraise' as <-.
      exists st. split; [reflexivity|exact Hcalls].
    + exfalso. destruct Hrun as [Hstored _].
      destruct Hstored as (_ & _ & _ & _ & _ & _ & Hfits).
      destruct (Hfits m Hm) as [Hbelow _].
      destruct (Hbelow Hm) as (t & sc & Hfit & _).
      unfold fit_of in Hraise. rewrite Hfit in Hraise. discriminate.
Qed.

End Script.

(** ** Concrete runs *)

Lemma band_masks_partition_witness :
  increasing_b [0; 1; 2] = true
  /\ (2 <= length [0; 1; 2])%nat
  /\ forall i i' k, i <> i' ->
       ~ (mask_of [0; 1; 2] i [0.5; 1.5] !! k = Some true
          /\ mask_of [0; 1; 2] i' [0.5; 1.5] !! k = Some true).
Proof.
  split; [reflexivity|]. split; [simpl; lia|].
  exact (proj1 (band_masks_partition [0; 1; 2] [0.5; 1.5]
                  eq_refl ltac:(simpl; lia))).
Defined.



Lemma band_fits_called_witness :
  prelude string demo_e490 3 kernel_ones convolve_keep empty_store
  = (inr tt,
     snd (prelude string demo_e490 3 kernel_ones convolve_keep empty_store))
  /\ exists st,
       script string demo_e490 3 kernel_ones convolve_keep fit_guess
              planck_linear empty_store = (inr tt, st)
       /\ length (fit_calls (trace st)) = 8%nat.
Proof.
  assert (Hpre : prelude string demo_e490 3 kernel_ones convolve_keep
                   empty_store
                 = (inr tt,
                    snd (prelude string demo_e490 3 kernel_ones convolve_keep
                           empty_store)))
    by (vm_compute; reflexivity).
  split; [exact Hpre|].
  pose proof (band_fits_called string demo_e490 3 kernel_ones convolve_keep
                fit_guess planck_linear _ Hpre) as H.
  cbv zeta in H.
  destruct H as (_ & _ & Hall & _).
  destruct Hall as (st & Hrun & Hcalls & _).
  - intros i _. eexists. reflexivity.
  - exists st. split; [exact Hrun|].
    rewrite Hcalls, length_map, length_seq. reflexivity.
Defined.

Lemma merge_is_selection_witness :
  increasing_b [1; 9; 10] = true
  /\ merge unit (mkStore [1; 9; 10] [1; 2; 3] [] [10; 20; 30] [] [] [] [] [])
     = (inr tt,
        set_S (merge_spec [1; 9; 10] [10; 20; 30] [1; 2; 3])
          (mkStore [1; 9; 10] [1; 2; 3] [] [10; 20; 30] [] [] [] [] [])).
Proof.
  split; [reflexivity|].
  exact (proj1 (merge_is_selection unit
                  (mkStore [1; 9; 10] [1; 2; 3] [] [10; 20; 30] [] [] [] [] [])
                  eq_refl eq_refl eq_refl)).
Defined.

Lemma empty_band_defers_to_fitter_witness :
  count_true (mask_of [0; 1; 2] 1 [0.5]) = 0%nat
  /\ band_step string fit_two_or_more planck_linear [0; 1; 2] 1
       (mkStore [0.5] [] [] [] [7] [0; 0] [0; 0] [0] [])
     = (inl (FitError "Improper input"%string),
        log [EvFit [] [] [] (5800.0, 1.0)]
          (mkStore [0.5] [] [] [] [7] [0; 0] [0; 0] [0] [])).
Proof.
  split; [reflexivity|].
  exact (empty_band_defers_to_fitter string fit_two_or_more planck_linear
           [0; 1; 2] 1 (mkStore [0.5] [] [] [] [7] [0; 0] [0; 0] [0] [])
           ltac:(simpl; lia) eq_refl ltac:(simpl; lia) ltac:(simpl; lia)
           eq_refl eq_refl).
Defined.

Lemma assembled_fit_written_once_witness :
  fst (script string demo_e490 3 kernel_ones convolve_keep fit_guess
         planck_linear empty_store) = inr tt
  /\ length (st_Sfit (snd (script string demo_e490 3 kernel_ones convolve_keep
                             fit_guess planck_linear empty_store)))
     = length (fst demo_e490).
Proof.
  split; [vm_compute; reflexivity|].
  refine (proj1 (proj2 (assembled_fit_written_once string demo_e490 3
                          kernel_ones convolve_keep fit_guess planck_linear
                          (snd (script string demo_e490 3 kernel_ones
                                  convolve_keep fit_guess planck_linear
                                  empty_store)) _))).
  vm_compute. reflexivity.
Defined.

Lemma uncovered_sample_left_at_zero_witness :
  increasing_b [0; 1; 2] = true /\ last [0; 1; 2] = Some 2 /\ 2 < 5
  /\ st_Sfit (snd (fit_bands string fit_two_or_more planck_linear [0; 1; 2]
                     (mkStore [0.25; 0.5; 1.25; 1.5; 5] [] [] []
                              [1; 2; 3; 4; 5] [] [] [] [])))
       !! 4%nat = Some 0.
Proof.
  split; [reflexivity|]. split; [reflexivity|]. split; [reflexivity|].
  pose proof (uncovered_sample_left_at_zero string fit_two_or_more
                planck_linear [0; 1; 2]
                (mkStore [0.25; 0.5; 1.25; 1.5; 5] [] [] []
                         [1; 2; 3; 4; 5] [] [] [] [])
                4 5 2 eq_refl eq_refl eq_refl eq_refl eq_refl eq_refl) as H.
  destruct (fit_bands string fit_two_or_more planck_linear [0; 1; 2] _)
    as [[e|[]] st'] eqn:Hrun.
  - vm_compute in Hrun. discriminate Hrun.
  - exact (proj1 H).
Defined.

(** ** Where the code departs from the specification *)

(** C1 fails on the code. Over the edges [0, 1, 2] and the single
    wavelength 0.5, band 1 selects no sample; with a fitter that returns
    its guess the band fit completes and stores the guess (5800, 1) for
    that band.  With a fitter that raises on fewer than two samples, the
    exception that ends the run is the fitter's own, the same whether the
    empty band is band 1 (wavelengths 0.25, 0.5) or band 0 (wavelengths
    1.25, 1.5). *)
Lemma empty_band_not_reported :
  count_true (mask_of [0; 1; 2] 1 [0.5]) = 0%nat
  /\ (let out := fit_bands string fit_guess planck_linear [0; 1; 2]
                   (mkStore [0.5] [] [] [] [7] [] [] [] []) in
      fst out = inr tt
      /\ st_T (snd out) !! 1%nat = Some 5800.0
      /\ st_C (snd out) !! 1%nat = Some 1.0)
  /\ count_true (mask_of [0; 1; 2] 1 [0.25; 0.5]) = 0%nat
  /\ fst (fit_bands string fit_two_or_more planck_linear [0; 1; 2]
            (mkStore [0.25; 0.5] [] [] [] [7; 8] [] [] [] []))
     = inl (FitError "Improper input"%string)
  /\ count_true (mask_of [0; 1; 2] 0 [1.25; 1.5]) = 0%nat
  /\ fst (fit_bands string fit_two_or_more planck_linear [0; 1; 2]
            (mkStore [1.25; 1.5] [] [] [] [7; 8] [] [] [] []))
     = inl (FitError "Improper input"%string).
Proof. vm_compute. repeat split; reflexivity. Qed.


(** C5 fails on the code. Over the edges [0, 1, 2] and the single
    wavelength 5, with a fitter that returns its guess, the band fit
    completes: nothing is flagged, no entry of [Sfit] is stored into and
    [Sfit] is [[0]].  With two samples in each band and a fifth sample
    at wavelength 5, it completes also with a fitter that needs two
    samples, and the fifth entry of [Sfit] is zero. *)
Lemma uncovered_sample_not_flagged :
  (let out := fit_bands string fit_guess planck_linear [0; 1; 2]
                (mkStore [5.0] [] [] [] [7] [] [] [] []) in
   fst out = inr tt
   /\ st_Sfit (snd out) = [0]
   /\ Sfit_writes 0 (trace (snd out)) = 0%nat)
  /\ (let out := fit_bands string fit_two_or_more planck_linear [0; 1; 2]
                   (mkStore [0.25; 0.5; 1.25; 1.5; 5] [] [] []
                            [1; 2; 3; 4; 5] [] [] [] []) in
      fst out = inr tt
      /\ st_Sfit (snd out) !! 4%nat = Some 0).
Proof. vm_compute. repeat split; reflexivity. Qed.

(** ** Concrete runs for the further properties *)

Lemma merge_is_splice_witness :
  increasing_b [1; 9; 10] = true
  /\ st_S (snd (merge unit (mkStore [1; 9; 10] [1; 2; 3] [] [10; 20; 30]
                                    [] [] [] [] [])))
     = take (count_true (lt_scalar [1; 9; 10] 9)) [10; 20; 30]
       ++ drop (count_true (lt_scalar [1; 9; 10] 9)) [1; 2; 3].
Proof.
  split; [reflexivity|].
  exact (proj1 (merge_is_splice unit
                  (mkStore [1; 9; 10] [1; 2; 3] [] [10; 20; 30] [] [] [] [] [])
                  eq_refl eq_refl eq_refl)).
Defined.

Lemma bands_are_ordered_blocks_witness :
  increasing_b [0.25; 0.5; 1.5] = true
  /\ forall i k1 k2 k3,
       (k1 <= k2 <= k3)%nat ->
       mask_of [0; 1; 2] i [0.25; 0.5; 1.5] !! k1 = Some true ->
       mask_of [0; 1; 2] i [0.25; 0.5; 1.5] !! k3 = Some true ->
       mask_of [0; 1; 2] i [0.25; 0.5; 1.5] !! k2 = Some true.
Proof.
  split; [reflexivity|].
  exact (proj1 (bands_are_ordered_blocks [0; 1; 2] [0.25; 0.5; 1.5] eq_refl)).
Defined.

Lemma bands_share_out_samples_witness :
  increasing_b [0; 1; 2] = true
  /\ Nat.le
       (sum_list (map (fun i => count_true (mask_of [0; 1; 2] i [0.5; 1.5; 5]))
                      (seq 0 2)))
       3.
Proof.
  split; [reflexivity|].
  exact (proj2 (bands_share_out_samples [0; 1; 2] [0.5; 1.5; 5] eq_refl)).
Defined.

Lemma fit_bands_fails_only_in_fitter_witness :
  [0; 1; 2] <> []
  /\ fst (fit_bands string fit_guess planck_linear [0; 1; 2]
            (mkStore [0.5; 1.5] [] [] [] [7; 8] [] [] [] []))
     = inr tt.
Proof.
  split; [discriminate|].
  exact (proj2 (fit_bands_fails_only_in_fitter string fit_guess planck_linear
                  [0; 1; 2] (mkStore [0.5; 1.5] [] [] [] [7; 8] [] [] [] [])
                  ltac:(discriminate) eq_refl)
               (fun wave fluxd err p0 => ex_intro _ p0 eq_refl)).
Defined.

Lemma fit_results_stored_witness :
  fst (fit_bands string fit_guess planck_linear [0; 1; 2]
         (mkStore [0.5; 1.5] [] [] [] [7; 8] [] [] [] []))
  = inr tt
  /\ exists t sc,
       st_T (snd (fit_bands string fit_guess planck_linear [0; 1; 2]
                    (mkStore [0.5; 1.5] [] [] [] [7; 8] [] [] [] [])))
         !! 1%nat = Some t
       /\ st_C (snd (fit_bands string fit_guess planck_linear [0; 1; 2]
                       (mkStore [0.5; 1.5] [] [] [] [7; 8] [] [] [] [])))
            !! 1%nat = Some sc.
Proof.
  split; [vm_compute; reflexivity|].
  destruct (fit_results_stored string fit_guess planck_linear [0; 1; 2]
              (mkStore [0.5; 1.5] [] [] [] [7; 8] [] [] [] [])
              (snd (fit_bands string fit_guess planck_linear [0; 1; 2]
                      (mkStore [0.5; 1.5] [] [] [] [7; 8] [] [] [] [])))
              eq_refl ltac:(vm_compute; reflexivity) 1
              ltac:(simpl; lia))
    as (t & sc & _ & Ht & Hc).
  exists t, sc. split; [exact Ht|exact Hc].
Defined.

Lemma failed_fit_keeps_earlier_bands_witness :
  fst (fit_bands string fit_two_or_more planck_linear [0; 1; 2]
         (mkStore [0.25; 0.5; 1.5] [] [] [] [7; 8; 9] [] [] [] []))
  = inl (FitError "Improper input"%string)
  /\ st_T (snd (fit_bands string fit_two_or_more planck_linear [0; 1; 2]
                  (mkStore [0.25; 0.5; 1.5] [] [] [] [7; 8; 9] [] [] [] [])))
       !! 0%nat = Some 5800.0
  /\ st_T (snd (fit_bands string fit_two_or_more planck_linear [0; 1; 2]
                  (mkStore [0.25; 0.5; 1.5] [] [] [] [7; 8; 9] [] [] [] [])))
       !! 1%nat = Some 0.
Proof.
  split; [vm_compute; reflexivity|].
  destruct (failed_fit_keeps_earlier_bands string fit_two_or_more
              planck_linear [0; 1; 2]
              (mkStore [0.25; 0.5; 1.5] [] [] [] [7; 8; 9] [] [] [] [])
              (snd (fit_bands string fit_two_or_more planck_linear [0; 1; 2]
                      (mkStore [0.25; 0.5; 1.5] [] [] [] [7; 8; 9]
                               [] [] [] [])))
              (FitError "Improper input"%string)
              ltac:(discriminate) eq_refl ltac:(vm_compute; reflexivity))
    as (m & e' & Hm & _ & Hraise & Hpairs & Hzero).
  destruct m as [|[|m]].
  - vm_compute in Hraise. discriminate Hraise.
  - split.
    + destruct (Hpairs 0%nat ltac:(lia)) as (t & sc & Hfit & Ht & _).
      vm_compute in Hfit. injection Hfit as <- _. exact Ht.
    + exact (proj1 (Hzero 1%nat ltac:(simpl; lia))).
  - simpl in Hm. lia.
Defined.

Lemma empty_spectrum_fit_witness :
  (2 <= length [0; 1; 2])%nat
  /\ exists st',
       fit_bands string fit_guess planck_linear [0; 1; 2] empty_store
       = (inr tt, st')
       /\ st_T st' = repeat 5800.0 2
       /\ st_C st' = repeat 1.0 2
       /\ st_Sfit st' = [].
Proof.
  split; [simpl; lia|].
  exact (empty_spectrum_fit string fit_guess planck_linear [0; 1; 2]
           empty_store ltac:(simpl; lia) eq_refl eq_refl).
Defined.

Lemma band_steps_commute_witness :
  increasing_b [0; 1; 2] = true
  /\ (fst (@mbind (M string) (M_bind string) unit unit
             (fun _ => band_step string fit_guess planck_linear [0; 1; 2] 1)
             (band_step string fit_guess planck_linear [0; 1; 2] 0)
             (mkStore [0.5; 1.5] [] [] [] [7; 8] [0; 0] [0; 0] [0; 0] []))
      = inr tt
      <-> fst (@mbind (M string) (M_bind string) unit unit
                 (fun _ => band_step string fit_guess planck_linear
                             [0; 1; 2] 0)
                 (band_step string fit_guess planck_linear [0; 1; 2] 1)
                 (mkStore [0.5; 1.5] [] [] [] [7; 8] [0; 0] [0; 0] [0; 0] []))
          = inr tt).
Proof.
  split; [reflexivity|].
  pose proof (band_steps_commute string fit_guess planck_linear [0; 1; 2]
                0 1 (mkStore [0.5; 1.5] [] [] [] [7; 8] [0; 0] [0; 0]
                             [0; 0] [])
                eq_refl ltac:(lia) ltac:(simpl; lia) ltac:(simpl; lia)
                eq_refl eq_refl eq_refl eq_refl) as H.
  cbv zeta in H. exact (proj1 H).
Defined.

Lemma band_step_twice_witness :
  fst (band_step string fit_guess planck_linear [0; 1; 2] 0
         (mkStore [0.5; 1.5] [] [] [] [7; 8] [0; 0] [0; 0] [0; 0] []))
  = inr tt
  /\ exists st2,
       band_step string fit_guess planck_linear [0; 1; 2] 0
         (snd (band_step string fit_guess planck_linear [0; 1; 2] 0
                 (mkStore [0.5; 1.5] [] [] [] [7; 8] [0; 0] [0; 0] [0; 0]
                          [])))
       = (inr tt, st2)
       /\ st_Sfit st2
          = st_Sfit (snd (band_step string fit_guess planck_linear [0; 1; 2]
                            0 (mkStore [0.5; 1.5] [] [] [] [7; 8] [0; 0]
                                       [0; 0] [0; 0] []))).
Proof.
  split; [vm_compute; reflexivity|].
  destruct (band_step_twice string fit_guess planck_linear [0; 1; 2] 0
              (mkStore [0.5; 1.5] [] [] [] [7; 8] [0; 0] [0; 0] [0; 0] [])
              (snd (band_step string fit_guess planck_linear [0; 1; 2] 0
                      (mkStore [0.5; 1.5] [] [] [] [7; 8] [0; 0] [0; 0]
                               [0; 0] [])))
              ltac:(simpl; lia) eq_refl eq_refl eq_refl eq_refl
              ltac:(vm_compute; reflexivity))
    as (st2 & Hrun & _ & _ & _ & _ & HF).
  exists st2. split; [exact Hrun|exact HF].
Defined.

Lemma script_covers_every_sample_witness :
  fst (script string demo_e490 3 kernel_ones convolve_keep fit_guess
         planck_linear empty_store) = inr tt
  /\ exists i,
       (i < 8)%nat
       /\ mask_of wr i (fst demo_e490) !! 3%nat = Some true.
Proof.
  split; [vm_compute; reflexivity|].
  destruct (script_covers_every_sample string demo_e490 3 kernel_ones
              convolve_keep fit_guess planck_linear
              (snd (script string demo_e490 3 kernel_ones convolve_keep
                      fit_guess planck_linear empty_store))
              ltac:(vm_compute; reflexivity)
              ltac:(intros [|[|[|[|[|k]]]]] x H; simpl in H;
                    try discriminate H; injection H as <-;
                    (split; [reflexivity|apply Qle_bool_iff; reflexivity]))
              3%nat 9 eq_refl)
    as (i & Hi & Hmask & _).
  exists i. split; [exact Hi|exact Hmask].
Defined.

Lemma plotted_ratio_witness :
  fst (script string demo_e490 3 kernel_ones convolve_keep fit_guess
         planck_linear empty_store) = inr tt
  /\ exists r,
       plot_ratio string
         (snd (script string demo_e490 3 kernel_ones convolve_keep fit_guess
                 planck_linear empty_store))
       = (inr r,
          snd (script string demo_e490 3 kernel_ones convolve_keep fit_guess
                 planck_linear empty_store))
       /\ length r = length (fst demo_e490).
Proof.
  split; [vm_compute; reflexivity|].
  destruct (plotted_ratio string demo_e490 3 kernel_ones convolve_keep
              fit_guess planck_linear
              (snd (script string demo_e490 3 kernel_ones convolve_keep
                      fit_guess planck_linear empty_store))
              ltac:(vm_compute; reflexivity))
    as (r & Hrun & Hlen & _).
  exists r. split; [exact Hrun|exact Hlen].
Defined.

Lemma trace_of_band_fit_witness :
  [0; 1; 2] <> []
  /\ trace (snd (fit_bands string fit_guess planck_linear [0; 1; 2]
                   (mkStore [0.5; 1.5] [] [] [] [7; 8] [] [] [] [])))
     = [] ++ concat (map (band_events [0; 1; 2] [0.5; 1.5] [7; 8])
                         (seq 0 2)).
Proof.
  split; [discriminate|].
  pose proof (trace_of_band_fit string fit_guess planck_linear [0; 1; 2]
                (mkStore [0.5; 1.5] [] [] [] [7; 8] [] [] [] [])
                ltac:(discriminate) eq_refl) as H.
  destruct (fit_bands string fit_guess planck_linear [0; 1; 2] _)
    as [[e|[]] st'] eqn:Hrun.
  - vm_compute in Hrun. discriminate Hrun.
  - exact H.
Defined.
